(** * The Aden TUI dashboard: execution highlight and log relay

    A shallow embedding of [framework/tui/widgets/graph_view.py],
    [framework/tui/widgets/log_pane.py] and the event, logging and screenshot
    glue of [framework/tui/app.py].

    Conventions of the embedding:
    - a widget or the application object is a record; a method is a function
      from the record to the updated record; a method that can raise answers
      the record as the raise leaves it, together with an [Outcome];
    - a [RichLog] is the list of the strings written to it ([clear] empties
      it).  Both logs are built with [markup=True]: a write parses its string
      as markup and raises on a string the parser refuses.  Which strings it
      accepts is the toolkit's business, the class [Markup];
    - the widget tree is taken as composed, so [query_one] finds its widget;
    - [event.data] is a dictionary from keys to strings ([gmap string string]);
      a missing key makes [dict.get] answer [None];
    - Python truthiness of a string is "not empty"; a Python string is the
      UTF-8 text of its characters;
    - timers ([set_interval], [set_timer], [call_later]) only schedule calls
      and the writes to the debug file [tui_debug.log] are read by nobody:
      both are left out. *)

From Stdlib Require Import DecimalString.
From stdpp Require Import base option list gmap strings.

(** ** Python helpers *)

(** [bool(s)] for a string. *)
Definition truthy (s : string) : bool := bool_decide (s ≠ "").

(** [s.startswith(p)] *)
Definition startswith (s p : string) : bool := String.prefix p s.

(** [s.startswith((p1, p2, ...))] *)
Definition startswith_any (s : string) (ps : list string) : bool :=
  existsb (startswith s) ps.

(** [str(len(l))] *)
Definition str_len {A} (l : list A) : string :=
  NilZero.string_of_uint (Nat.to_uint (length l)).

(** [l[-k:]] for a positive [k] *)
Definition last_k {A} (k : nat) (l : list A) : list A :=
  drop (length l - k) l.

(** [sep.join(l)] *)
Definition join (sep : string) (l : list string) : string := String.concat sep l.

Definition newline : string := String (Ascii.ascii_of_nat 10) "".

(** A byte that continues a UTF-8 character ([10xxxxxx]). *)
Definition is_continuation (c : Ascii.ascii) : bool :=
  let b := Ascii.nat_of_ascii c in Nat.leb 128 b && Nat.ltb b 192.

(** [s[:n]]: the first [n] characters, each with all its bytes. *)
Fixpoint take_chars (n : nat) (s : string) : string :=
  match s with
  | EmptyString => EmptyString
  | String c s' =>
      if is_continuation c then String c (take_chars n s')
      else
        match n with
        | 0 => EmptyString
        | S n' => String c (take_chars n' s')
        end
  end.

(** ** The toolkit's markup *)

(** [renders line] says that [RichLog.write(line)] of a log built with
    [markup=True] accepts [line]; on any other string the write raises. *)
Class Markup := renders : string → bool.

(** How a call ends. *)
Inductive Outcome :=
  | Returned
  | Raised.

(** The lines written before the first one that does not render. *)
Fixpoint rendered `{Markup} (lines : list string) : list string :=
  match lines with
  | [] => []
  | line :: rest => if renders line then line :: rendered rest else []
  end.

(** ** Runtime events ([framework.runtime.event_bus]) *)

(** Modelled from the spec: the enumeration [EventType] is declared in
    [framework/runtime/event_bus.py], which is not among the sources.  The four
    members the widget tests for are kept apart; [OTHER_EVENT v] stands for any
    further member, [v] being its [.value].  The values of the four members are
    the snake-case names of the spec's variants, which is what the prefix gate
    of [_handle_event_sync] presupposes. *)
Inductive EventType :=
  | NODE_STARTED
  | NODE_COMPLETED
  | EXECUTION_COMPLETED
  | EXECUTION_FAILED
  | OTHER_EVENT (v : string).

Definition value (t : EventType) : string :=
  match t with
  | NODE_STARTED => "node_started"
  | NODE_COMPLETED => "node_completed"
  | EXECUTION_COMPLETED => "execution_completed"
  | EXECUTION_FAILED => "execution_failed"
  | OTHER_EVENT v => v
  end.

Record Event := mkEvent {
  type : EventType;
  data : gmap string string;
}.

(** The spec's variants, as the events the runtime builds for them. *)
Definition NodeStarted (n : string) : Event := mkEvent NODE_STARTED {["node_id" := n]}.
Definition NodeCompleted (n : string) : Event := mkEvent NODE_COMPLETED {["node_id" := n]}.
Definition ExecutionCompleted : Event := mkEvent EXECUTION_COMPLETED ∅.
Definition ExecutionFailed (error : string) : Event :=
  mkEvent EXECUTION_FAILED {["error" := error]}.

(** ** The runtime as the widget reads it *)

Record EntryPoint := mkEntryPoint {
  ep_name : string;
  ep_entry_node : string;
}.

(** [node_kind] is [Some t] when the node has a [type] attribute. *)
Record Node := mkNode {
  node_ident : string;
  node_kind : option string;
}.

Record Graph := mkGraph {
  graph_id : string;
  entry_node : string;
  nodes : list Node;
  terminal_nodes : list string;
}.

Record AgentRuntime := mkRuntime {
  graph : Graph;
  goal_description : string;
  get_entry_points : list EntryPoint;
}.

(** ** graph_view.py *)

Module GraphView.

Record GraphOverview := mkGraphOverview {
  runtime : AgentRuntime;
  active_node : option string;
  execution_path : list string;
  display : list string;
}.

Definition set_active_node (a : option string) (g : GraphOverview) : GraphOverview :=
  mkGraphOverview (runtime g) a (execution_path g) (display g).

Definition set_execution_path (p : list string) (g : GraphOverview) : GraphOverview :=
  mkGraphOverview (runtime g) (active_node g) p (display g).

Definition set_display (d : list string) (g : GraphOverview) : GraphOverview :=
  mkGraphOverview (runtime g) (active_node g) (execution_path g) d.

(** [GraphOverview.__init__] *)
Definition init (rt : AgentRuntime) : GraphOverview := mkGraphOverview rt None [] [].

(** The rest of a method runs only if the call before it returned. *)
Definition and_then (r : GraphOverview * Outcome)
    (k : GraphOverview → GraphOverview * Outcome) : GraphOverview * Outcome :=
  match r with
  | (g, Returned) => k g
  | (g, Raised) => (g, Raised)
  end.

Definition entry_point_line (ep : EntryPoint) : string :=
  "  • " +:+ ep_name ep +:+ " → [cyan]" +:+ ep_entry_node ep +:+ "[/cyan]".

Definition node_line (g : GraphOverview) (node : Node) : string :=
  let node_type := default "unknown" (node_kind node) in
  if bool_decide (active_node g = Some (node_ident node)) then
    "  ▶ [bold green]" +:+ node_ident node +:+ "[/bold green] (" +:+ node_type +:+ ")"
  else if bool_decide (node_ident node ∈ execution_path g) then
    "  ✓ [dim]" +:+ node_ident node +:+ "[/dim] (" +:+ node_type +:+ ")"
  else
    "  • " +:+ node_ident node +:+ " (" +:+ node_type +:+ ")".

Definition terminal_line (node_id : string) : string :=
  "  • [yellow]" +:+ node_id +:+ "[/yellow]".

(** The strings [_display_graph] hands to [display.write], in order. *)
Definition graph_lines (g : GraphOverview) : list string :=
  let gr := graph (runtime g) in
  [ "[bold cyan]Agent Graph Structure[/bold cyan]" +:+ newline;
    "[dim]Graph ID:[/dim] " +:+ graph_id gr;
    "[dim]Goal:[/dim] " +:+ take_chars 50 (goal_description (runtime g)) +:+ "...";
    "" ]
  ++ match get_entry_points (runtime g) with
     | [] => [ "[bold]Entry Node:[/bold] [cyan]" +:+ entry_node gr +:+ "[/cyan]" ]
     | eps => "[bold]Entry Points:[/bold]" :: map entry_point_line eps
     end
  ++ [ ""; "[bold]Nodes (" +:+ str_len (nodes gr) +:+ "):[/bold]" ]
  ++ map (node_line g) (nodes gr)
  ++ [ "" ]
  ++ match terminal_nodes gr with
     | [] => []
     | tns => "[bold]Terminal Nodes:[/bold]" :: map terminal_line tns
     end
  ++ match active_node g with
     | Some a =>
         if truthy a
         then [ ""; "[bold green]Currently Executing:[/bold green] " +:+ a ]
         else []
     | None => []
     end
  ++ match execution_path g with
     | [] => []
     | p => [ "[dim]Path:[/dim] " +:+ join " → " (last_k 5 p) ]
     end.

Definition complete_banner : string := "[bold green]✓ Execution Complete![/bold green]".
Definition failed_prefix : string := "[bold red]✗ Execution Failed:[/bold red] ".

Section Rendering.

Context {markup : Markup}.

(** [display.write(line)]: the line joins the log, or the write raises and
    the log stays as it is. *)
Definition write (line : string) (g : GraphOverview) : GraphOverview * Outcome :=
  if renders line
  then (set_display (display g ++ [line]) g, Returned)
  else (g, Raised).

(** Writes in a row: the first raise ends them. *)
Fixpoint write_lines (lines : list string) (g : GraphOverview) : GraphOverview * Outcome :=
  match lines with
  | [] => (g, Returned)
  | line :: rest => and_then (write line g) (write_lines rest)
  end.

(** [_display_graph]: [display.clear()], then the writes. *)
Definition _display_graph (g : GraphOverview) : GraphOverview * Outcome :=
  write_lines (graph_lines g) (set_display [] g).

(** [on_mount] *)
Definition on_mount (g : GraphOverview) : GraphOverview * Outcome := _display_graph g.

(** [update_active_node] *)
Definition update_active_node (node_id : string) (g : GraphOverview)
    : GraphOverview * Outcome :=
  let g1 := set_active_node (Some node_id) g in
  let g2 :=
    if bool_decide (node_id ∉ execution_path g1)
    then set_execution_path (execution_path g1 ++ [node_id]) g1
    else g1 in
  _display_graph g2.

(** [update_execution] *)
Definition update_execution (event : Event) (g : GraphOverview) : GraphOverview * Outcome :=
  match type event with
  | NODE_STARTED =>
      match data event !! "node_id" with
      | Some node_id =>
          if truthy node_id then update_active_node node_id g else (g, Returned)
      | None => (g, Returned)
      end
  | NODE_COMPLETED =>
      match data event !! "node_id" with
      | Some node_id =>
          if truthy node_id && bool_decide (Some node_id = active_node g)
          then _display_graph (set_active_node None g)
          else (g, Returned)
      | None => (g, Returned)
      end
  | EXECUTION_COMPLETED =>
      and_then (write "" g) (λ g,
      and_then (write complete_banner g) (λ g,
      (set_active_node None g, Returned)))
  | EXECUTION_FAILED =>
      and_then (write "" g) (λ g,
      let error := default "Unknown error" (data event !! "error") in
      and_then (write (failed_prefix +:+ error) g) (λ g,
      (set_active_node None g, Returned)))
  | OTHER_EVENT _ => (g, Returned)
  end.

(** The events of a run, applied in order; the caller goes on after a raise
    with the widget as the raise left it. *)
Definition apply_all (events : list Event) (g : GraphOverview) : GraphOverview :=
  foldl (λ g e, (update_execution e g).1) g events.

End Rendering.

End GraphView.

(** ** log_pane.py *)

Module LogPaneWidget.

(** [is_mounted] of the pane and of its [RichLog] are toolkit state; the lines
    of the [RichLog] are [main_log]. *)
Record LogPane := mkLogPane {
  is_mounted : bool;
  log_is_mounted : bool;
  main_log : list string;
}.

(** [write_log]: a raise of [log.write] is caught and the message is gone. *)
Definition write_log `{Markup} (message : string) (p : LogPane) : LogPane :=
  if negb (is_mounted p) then p
  else if negb (log_is_mounted p) then p
  else if renders message
       then mkLogPane (is_mounted p) (log_is_mounted p) (main_log p ++ [message])
       else p.

End LogPaneWidget.

(** ** The process-wide logging configuration ([logging]) *)

Definition INFO : nat := 20.
Definition CRITICAL : nat := 50.

Record LogRecord := mkLogRecord {
  levelno : nat;
  name : string;
  message : string;
}.

(** A handler object: [hid] is its identity, [hlevel] its level. *)
Record Handler := mkHandler {
  hid : nat;
  hlevel : nat;
}.

Global Instance Handler_eq_dec : EqDecision Handler.
Proof. solve_decision. Defined.

(** What [_setup_logging_queue] and [on_unmount] touch: the root logger's
    handlers and level, and the ["LiteLLM"] logger. *)
Record Logging := mkLogging {
  root_handlers : list Handler;
  root_level : nat;
  litellm_level : nat;
  litellm_propagate : bool;
}.

(** [list.remove(x)]: the first occurrence goes. *)
Fixpoint remove_first (h : Handler) (hs : list Handler) : list Handler :=
  match hs with
  | [] => []
  | h' :: rest => if bool_decide (h' = h) then rest else h' :: remove_first h rest
  end.

(** [Logger.removeHandler]: [if hdlr in self.handlers: self.handlers.remove(hdlr)] *)
Definition removeHandler (h : Handler) (hs : list Handler) : list Handler :=
  if bool_decide (h ∈ hs) then remove_first h hs else hs.

(** [Logger.addHandler]: [if not (hdlr in self.handlers): self.handlers.append(hdlr)] *)
Definition addHandler (h : Handler) (hs : list Handler) : list Handler :=
  if bool_decide (h ∈ hs) then hs else hs ++ [h].

(** ** app.py *)

Module App.

Import GraphView LogPaneWidget.

Record AdenTUI := mkAdenTUI {
  graph_view : GraphOverview;
  log_pane : LogPane;
  is_ready : bool;
  log_queue : list LogRecord;
  queue_handler : option Handler;
}.

(** The application together with the logging configuration of its process. *)
Record World := mkWorld {
  app : AdenTUI;
  logging : Logging;
}.

Definition set_graph_view (g : GraphOverview) (a : AdenTUI) : AdenTUI :=
  mkAdenTUI g (log_pane a) (is_ready a) (log_queue a) (queue_handler a).

Definition set_log_pane (p : LogPane) (a : AdenTUI) : AdenTUI :=
  mkAdenTUI (graph_view a) p (is_ready a) (log_queue a) (queue_handler a).

Definition set_is_ready (b : bool) (a : AdenTUI) : AdenTUI :=
  mkAdenTUI (graph_view a) (log_pane a) b (log_queue a) (queue_handler a).

Definition set_log_queue (q : list LogRecord) (a : AdenTUI) : AdenTUI :=
  mkAdenTUI (graph_view a) (log_pane a) (is_ready a) q (queue_handler a).

Definition set_queue_handler (h : option Handler) (a : AdenTUI) : AdenTUI :=
  mkAdenTUI (graph_view a) (log_pane a) (is_ready a) (log_queue a) h.

(** [AdenTUI.__init__] *)
Definition init (rt : AgentRuntime) (pane : LogPane) : AdenTUI :=
  mkAdenTUI (GraphView.init rt) pane false [] None.

(** [for handler in root_logger.handlers[:]: root_logger.removeHandler(handler)] *)
Definition remove_all_handlers (hs : list Handler) : list Handler :=
  foldl (fun cur h => removeHandler h cur) hs hs.

(** [_setup_logging_queue]; [fresh] is the identity of the new
    [QueueHandler(self.log_queue)]. *)
Definition _setup_logging_queue (fresh : nat) (w : World) : World :=
  let queue_handler := mkHandler fresh INFO in
  let a := set_queue_handler (Some queue_handler) (set_log_queue [] (app w)) in
  let hs := remove_all_handlers (root_handlers (logging w)) in
  let hs := addHandler queue_handler hs in
  mkWorld a (mkLogging hs INFO CRITICAL false).

(** [on_mount]: the logging set-up, then [is_ready = True]. *)
Definition on_mount (fresh : nat) (w : World) : World :=
  let w1 := _setup_logging_queue fresh w in
  mkWorld (set_is_ready true (app w1)) (logging w1).

(** [on_unmount] *)
Definition on_unmount (w : World) : World :=
  let a := set_is_ready false (app w) in
  match queue_handler a with
  | Some h =>
      let l := logging w in
      mkWorld a (mkLogging (removeHandler h (root_handlers l)) (root_level l)
                           (litellm_level l) (litellm_propagate l))
  | None => mkWorld a (logging w)
  end.

(** A record reaching the queue handler: [Logger.callHandlers] hands it over
    when [record.levelno >= hdlr.level], and [QueueHandler] enqueues it with
    [put_nowait] on [queue.Queue()], a queue created without [maxsize].
    Which records reach the handler is the logger tree's business: the
    ["LiteLLM"] logger, set not to propagate, sends it none. *)
Definition push (record : LogRecord) (a : AdenTUI) : AdenTUI :=
  match queue_handler a with
  | Some h =>
      if bool_decide (hlevel h ≤ levelno record)
      then set_log_queue (log_queue a ++ [record]) a
      else a
  | None => a
  end.

Definition push_all (records : list LogRecord) (a : AdenTUI) : AdenTUI :=
  foldl (fun a r => push r a) a records.

Definition noisy_prefixes : list string := ["textual"; "LiteLLM"; "litellm"].

(** [record.name.startswith(("textual", "LiteLLM", "litellm"))] *)
Definition noisy (record : LogRecord) : bool :=
  startswith_any (name record) noisy_prefixes.

(** [logging.Formatter().format(record)]: the default format is the message. *)
Definition format (record : LogRecord) : string := message record.

(** What the runtime may hand to the handler: an event whose [type] has a
    [value], an object whose [type] has none, an object without [type]. *)
Inductive EventObject :=
  | Typed (event : Event)
  | TypeWithoutValue
  | WithoutType.

(** One call of [safe_event_handler]: the object handed over, and whether
    [call_from_thread] gets the call to the UI thread ([arrives]) or raises. *)
Record HandOff := mkHandOff {
  handed : EventObject;
  arrives : bool;
}.

Section Rendering.

Context {markup : Markup}.

(** The [while not self.log_queue.empty()] loop of [_poll_logs]: the pane after
    it and the messages handed to [write_log], in order ([count] is their
    number). *)
Fixpoint poll_loop (q : list LogRecord) (p : LogPane) : LogPane * list string :=
  match q with
  | [] => (p, [])
  | record :: rest =>
      if noisy record
      then poll_loop rest p
      else
        let msg := format record in
        let '(p', written) := poll_loop rest (write_log msg p) in
        (p', msg :: written)
  end.

(** [_poll_logs], with the messages it handed on. *)
Definition _poll_logs (a : AdenTUI) : AdenTUI * list string :=
  if negb (is_ready a) then (a, [])
  else
    let '(p, written) := poll_loop (log_queue a) (log_pane a) in
    (set_log_pane p (set_log_queue [] a), written).

(** [_handle_event_sync]: a raise of [update_execution] is caught, the graph
    view stays as the raise left it. *)
Definition _handle_event_sync (obj : EventObject) (a : AdenTUI) : AdenTUI :=
  if negb (is_ready a) then a
  else
    match obj with
    | Typed event =>
        let event_type := value (type event) in
        if startswith_any event_type ["execution_"; "node_"]
        then set_graph_view (update_execution event (graph_view a)).1 a
        else a
    | TypeWithoutValue => a
    | WithoutType => a
    end.

(** [safe_event_handler]: [call_from_thread] runs [_handle_event_sync] on the
    UI thread and waits for it; when it raises instead, the [except] swallows
    the raise and the event is gone. *)
Definition safe_event_handler (h : HandOff) (a : AdenTUI) : AdenTUI :=
  if arrives h then _handle_event_sync (handed h) a else a.

(** The hand-offs of a session, in the order the calls are made. *)
Definition submit_all (hs : list HandOff) (a : AdenTUI) : AdenTUI :=
  foldl (λ a h, safe_event_handler h a) a hs.

End Rendering.

End App.

(** ** Observations on the widget *)

Module Observe.

Import GraphView.

(** The widget keeps no status field: the outcome of a run is what
    [update_execution] wrote last to the [RichLog]. *)
Inductive TerminalStatus :=
  | ok
  | failed (error : string).

Fixpoint strip_prefix (p s : string) : option string :=
  match p, s with
  | EmptyString, _ => Some s
  | String a p', String b s' => if bool_decide (a = b) then strip_prefix p' s' else None
  | String _ _, EmptyString => None
  end.

Definition terminal_status (g : GraphOverview) : option TerminalStatus :=
  match last (display g) with
  | Some line =>
      if bool_decide (line = complete_banner) then Some ok
      else failed <$> strip_prefix failed_prefix line
  | None => None
  end.

(** States the widget reaches from its constructor by events. *)
Definition reachable `{Markup} (g : GraphOverview) : Prop :=
  ∃ rt events, g = apply_all events (init rt).

End Observe.

(** ** Runs of node events *)

Module NodeRun.

Inductive NodeEvent :=
  | Started (n : string)
  | Completed (n : string).

Definition to_event (e : NodeEvent) : Event :=
  match e with
  | Started n => NodeStarted n
  | Completed n => NodeCompleted n
  end.

Definition node_of (e : NodeEvent) : string :=
  match e with
  | Started n => n
  | Completed n => n
  end.

Definition completes (n : string) (e : NodeEvent) : bool :=
  match e with
  | Started _ => false
  | Completed m => bool_decide (m = n)
  end.

(** A start of [n] is matched when a completion of [n] comes after it. *)
Definition matched_later (n : string) (rest : list NodeEvent) : bool :=
  existsb (completes n) rest.

(** The spec's reading of the highlight: the node of the latest start that no
    later completion of the same node matches, none when every start is
    matched. *)
Fixpoint latest_unmatched_start (events : list NodeEvent) : option string :=
  match events with
  | [] => None
  | Started n :: rest =>
      match latest_unmatched_start rest with
      | Some m => Some m
      | None => if matched_later n rest then None else Some n
      end
  | Completed _ :: rest => latest_unmatched_start rest
  end.

(** The latest start of a run, with the events after it. *)
Fixpoint latest_start (events : list NodeEvent) : option (string * list NodeEvent) :=
  match events with
  | [] => None
  | e :: rest =>
      match latest_start rest with
      | Some r => Some r
      | None =>
          match e with
          | Started n => Some (n, rest)
          | Completed _ => None
          end
      end
  end.

(** The node of the latest start, unless a completion of it follows. *)
Definition open_latest_start (events : list NodeEvent) : option string :=
  match latest_start events with
  | Some (n, rest) => if matched_later n rest then None else Some n
  | None => None
  end.

End NodeRun.

(** ** The gate of the event handler *)

(** The event [_handle_event_sync] passes on to the widget, if any: the object
    must have a [type] with a [value] that starts with ["execution_"] or
    ["node_"]. *)
Definition accepted (obj : App.EventObject) : option Event :=
  match obj with
  | App.Typed event =>
      if startswith_any (value (type event)) ["execution_"; "node_"]
      then Some event else None
  | App.TypeWithoutValue => None
  | App.WithoutType => None
  end.

(** The event a hand-off brings to the widget, if any. *)
Definition delivered (h : App.HandOff) : option Event :=
  if App.arrives h then accepted (App.handed h) else None.

(** ** A small graph for the examples *)

Definition sample_runtime : AgentRuntime :=
  mkRuntime
    (mkGraph "support-agent" "n1"
       [mkNode "n1" (Some "llm_generate"); mkNode "n2" None] ["n2"])
    "Answer the customer's question" [].

Definition sample_pane : LogPaneWidget.LogPane := LogPaneWidget.mkLogPane true true [].

Definition sample_world (hs : list Handler) : App.World :=
  App.mkWorld (App.init sample_runtime sample_pane) (mkLogging hs 30 0 true).

Definition sample_record (n : string) : LogRecord := mkLogRecord INFO n "tick".


(** [s] holds [p] somewhere. *)
Fixpoint has_substring (p s : string) : bool :=
  match s with
  | EmptyString => String.prefix p s
  | String _ s' => String.prefix p s || has_substring p s'
  end.

(** A markup for the examples: it refuses the strings that hold the closing
    tag [[/x]], a tag that no string of the dashboard opens. *)
Definition sample_markup : Markup := λ line, negb (has_substring "[/x]" line).

(** ** The node starts of a run *)

(** The node an event starts, if it starts one: a [NODE_STARTED] whose
    ["node_id"] is present and truthy. *)
Definition started_id (event : Event) : option string :=
  match type event with
  | NODE_STARTED =>
      match data event !! "node_id" with
      | Some n => if truthy n then Some n else None
      | None => None
      end
  | _ => None
  end.

(** A node joins the end of a path unless it is on it. *)
Definition add_new (path : list string) (n : string) : list string :=
  if bool_decide (n ∈ path) then path else path ++ [n].

(** A line that is neither of the two banners of [update_execution]. *)
Definition plain_line (line : string) : Prop :=
  line ≠ GraphView.complete_banner
  ∧ Observe.strip_prefix GraphView.failed_prefix line = None.

(** ** Screenshots ([save_png_screenshot], [action_screenshot]) *)

Module Screenshot.

(** [s.endswith(suffix)] *)
Fixpoint endswith (s suffix : string) : bool :=
  if String.eqb s suffix then true
  else
    match s with
    | EmptyString => false
    | String _ s' => endswith s' suffix
    end.

(** A border style, as the pair the code assigns: edge type and colour. *)
Definition Border : Type := string * string.

Definition hidden : Border := ("none", "transparent").

Record Notification := mkNotification {
  text : string;
  severity : string;
}.

(** What a screenshot reads and writes of the application: [border_left] of
    the chat container, [border] of every [Input] in query order, and the
    notifications shown. *)
Record Screen := mkScreen {
  chat_border_left : Border;
  input_borders : list Border;
  notifications : list Notification;
}.

Definition set_borders (chat : Border) (inputs : list Border) (s : Screen) : Screen :=
  mkScreen chat inputs (notifications s).

(** [self.notify(text, severity=...)] *)
Definition notify (t sev : string) (s : Screen) : Screen :=
  mkScreen (chat_border_left s) (input_borders s)
           (notifications s ++ [mkNotification t sev]).

(** A screen with every border hidden. *)
Definition hidden_screen (s : Screen) : Screen :=
  set_borders hidden (replicate (length (input_borders s)) hidden) s.

(** The file name after the two [if]s of [save_png_screenshot]; [timestamp]
    is [datetime.now().strftime("%Y%m%d_%H%M%S")]. *)
Definition screenshot_filename (filename : option string) (timestamp : string) : string :=
  let filename :=
    match filename with
    | None => "tui_screenshot_" +:+ timestamp +:+ ".svg"
    | Some f => f
    end in
  if negb (endswith filename ".svg") then filename +:+ ".svg" else filename.

(** The loop that remembers every [Input] border and hides it: the borders
    remembered and the borders left on the widgets. *)
Definition hide_inputs (inputs : list Border) : list Border * list Border :=
  foldl (λ '(original, now) b, (original ++ [b], now ++ [hidden])) ([], []) inputs.

(** The loop of the [finally] block:
    [input_widget.styles.border = original_input_borders[i]]. *)
Definition restore_inputs (original now : list Border) : list Border :=
  imap (λ i b, default b (original !! i)) now.

Section Environment.

(** The toolkit and the file system, as the method meets them.  [FS] is the
    state of the disk.  [mkdir dir fs] is [Path(dir).mkdir(exist_ok=True)] and
    [write_text path text fs] is [Path.write_text]: each answers the disk
    after the call, and the exception if the call raised (a failed write may
    have created or cut the file all the same).  [path_join dir name] is
    [str(Path(dir) / name)]; [export_screenshot] answers the SVG text or
    raises.  An exception is its message. *)
Variable FS : Type.
Variable path_join : string → string → string.
Variable mkdir : string → FS → FS * option string.
Variable export_screenshot : Screen → string + string.
Variable write_text : string → string → FS → FS * option string.

(** [save_png_screenshot]: the screen and the disk after it, and the path
    returned or the exception that leaves it. *)
Definition save_png_screenshot (filename : option string) (timestamp : string)
    (s : Screen) (fs : FS) : Screen * FS * (string + string) :=
  match mkdir "screenshots" fs with
  | (fs, Some e) => (s, fs, inr e)
  | (fs, None) =>
      let filename := screenshot_filename filename timestamp in
      let filepath := path_join "screenshots" filename in
      let original_chat_border := chat_border_left s in
      let '(original_input_borders, hidden_inputs) := hide_inputs (input_borders s) in
      let s1 := set_borders hidden hidden_inputs s in
      let '(fs, raised) :=
        match export_screenshot s1 with
        | inl svg_data => write_text filepath svg_data fs
        | inr e => (fs, Some e)
        end in
      let s2 :=
        set_borders original_chat_border
          (restore_inputs original_input_borders (input_borders s1)) s1 in
      match raised with
      | None => (s2, fs, inl filepath)
      | Some e => (s2, fs, inr e)
      end
  end.

(** [action_screenshot] *)
Definition action_screenshot (timestamp : string) (s : Screen) (fs : FS) : Screen * FS :=
  match save_png_screenshot None timestamp s fs with
  | (s', fs', inl filepath) =>
      (notify ("Screenshot saved: " +:+ filepath +:+ " (SVG - open in browser)")
              "information" s', fs')
  | (s', fs', inr e) => (notify ("Screenshot failed: " +:+ e) "error" s', fs')
  end.

End Environment.

End Screenshot.

(** * Properties of the execution highlight *)

Section ExecutionState.

Import GraphView Observe NodeRun.

Context {markup : Markup}.

Implicit Types (g : GraphOverview) (n : string) (event : Event).

Lemma truthy_true n : truthy n = true ↔ n ≠ "".
Proof. unfold truthy. by rewrite bool_decide_eq_true. Qed.

Lemma truthy_nonempty n : n ≠ "" → truthy n = true.
Proof. apply truthy_true. Qed.

Lemma truthy_empty : truthy "" = false.
Proof. done. Qed.

(** ** Writes *)

Lemma set_display_set_display d d' g : set_display d (set_display d' g) = set_display d g.
Proof. done. Qed.

Lemma set_display_same g : set_display (display g) g = g.
Proof. by destruct g. Qed.

(** Writes in a row leave on the log the lines before the first refused one,
    and touch nothing else. *)
Lemma write_lines_state lines g :
  (write_lines lines g).1 = set_display (display g ++ rendered lines) g.
Proof.
  revert g. induction lines as [|line lines IH]; intros g.
  - cbn. by rewrite app_nil_r, set_display_same.
  - cbn [write_lines rendered]. unfold write.
    destruct (renders line); cbn [and_then].
    + rewrite IH. cbn [display set_display]. by rewrite <- app_assoc.
    + cbn. by rewrite app_nil_r, set_display_same.
Qed.

Lemma write_lines_returned lines g :
  (write_lines lines g).2 = Returned → rendered lines = lines.
Proof.
  revert g. induction lines as [|line lines IH]; intros g; [done|].
  cbn [write_lines rendered]. unfold write.
  destruct (renders line); cbn [and_then]; [|done].
  intros Hr. by rewrite (IH _ Hr).
Qed.

Lemma rendered_prefix lines : rendered lines `prefix_of` lines.
Proof.
  induction lines as [|line lines IH]; [done|].
  cbn. destruct (renders line); [by apply prefix_cons | apply prefix_nil].
Qed.

Lemma elem_of_rendered lines line : line ∈ rendered lines → line ∈ lines.
Proof.
  destruct (rendered_prefix lines) as [rest Hl].
  intros Hin. rewrite Hl. apply elem_of_app. by left.
Qed.

(** The redraw: what it leaves and what it does not touch. *)

Lemma display_graph_state g :
  (_display_graph g).1 = set_display (rendered (graph_lines g)) g.
Proof. unfold _display_graph. by rewrite write_lines_state. Qed.

Lemma active_node_display g : active_node (_display_graph g).1 = active_node g.
Proof. by rewrite display_graph_state. Qed.

Lemma execution_path_display g : execution_path (_display_graph g).1 = execution_path g.
Proof. by rewrite display_graph_state. Qed.

Lemma runtime_display g : runtime (_display_graph g).1 = runtime g.
Proof. by rewrite display_graph_state. Qed.

Lemma display_display g : display (_display_graph g).1 = rendered (graph_lines g).
Proof. by rewrite display_graph_state. Qed.

Lemma active_node_update n g : active_node (update_active_node n g).1 = Some n.
Proof.
  unfold update_active_node. rewrite active_node_display. by case_bool_decide.
Qed.

Lemma execution_path_update n g :
  execution_path (update_active_node n g).1 =
    if bool_decide (n ∈ execution_path g) then execution_path g
    else execution_path g ++ [n].
Proof.
  unfold update_active_node. rewrite execution_path_display. cbn.
  do 2 case_bool_decide; cbn; done.
Qed.

Lemma runtime_update n g : runtime (update_active_node n g).1 = runtime g.
Proof. unfold update_active_node. rewrite runtime_display. by case_bool_decide. Qed.

(** The end of a run, by what the two writes do. *)

Lemma end_of_run_returned banner g :
  renders "" = true → renders banner = true →
  and_then (write "" g) (λ g,
    and_then (write banner g) (λ g, (set_active_node None g, Returned)))
  = (set_active_node None (set_display (display g ++ [""; banner]) g), Returned).
Proof.
  intros He Hb. unfold write. rewrite He. cbn [and_then display set_display].
  rewrite Hb. cbn [and_then]. unfold set_active_node, set_display. cbn.
  by rewrite <- app_assoc.
Qed.

Lemma end_of_run_raised banner g :
  renders "" = true → renders banner = false →
  and_then (write "" g) (λ g,
    and_then (write banner g) (λ g, (set_active_node None g, Returned)))
  = (set_display (display g ++ [""]) g, Raised).
Proof.
  intros He Hb. unfold write. rewrite He. cbn [and_then display set_display].
  by rewrite Hb.
Qed.

Lemma end_of_run_fields banner g :
  let r := and_then (write "" g) (λ g,
             and_then (write banner g) (λ g, (set_active_node None g, Returned))) in
  execution_path r.1 = execution_path g ∧ runtime r.1 = runtime g
  ∧ (active_node r.1 = None ∨ active_node r.1 = active_node g)
  ∧ (r.2 = Returned → renders "" = true ∧ renders banner = true).
Proof.
  unfold write. destruct (renders ""); cbn; [|naive_solver].
  destruct (renders banner); cbn; naive_solver.
Qed.

(** [update_execution] on the spec's variants. *)

Lemma update_execution_started n g :
  n ≠ "" → update_execution (NodeStarted n) g = update_active_node n g.
Proof.
  intros Hn. unfold update_execution, NodeStarted. cbn.
  rewrite lookup_singleton_eq. by rewrite truthy_nonempty.
Qed.

Lemma update_execution_started_empty g :
  update_execution (NodeStarted "") g = (g, Returned).
Proof. done. Qed.

Lemma update_execution_completed n g :
  n ≠ "" →
  update_execution (NodeCompleted n) g =
    if bool_decide (Some n = active_node g)
    then _display_graph (set_active_node None g) else (g, Returned).
Proof.
  intros Hn. unfold update_execution, NodeCompleted. cbn.
  rewrite lookup_singleton_eq. by rewrite truthy_nonempty.
Qed.

Lemma update_execution_completed_empty g :
  update_execution (NodeCompleted "") g = (g, Returned).
Proof. done. Qed.

Lemma update_execution_complete g :
  update_execution ExecutionCompleted g =
    and_then (write "" g) (λ g,
      and_then (write complete_banner g) (λ g, (set_active_node None g, Returned))).
Proof. done. Qed.

Lemma update_execution_failed error g :
  update_execution (ExecutionFailed error) g =
    and_then (write "" g) (λ g,
      and_then (write (failed_prefix +:+ error) g) (λ g, (set_active_node None g, Returned))).
Proof.
  unfold update_execution, ExecutionFailed. cbn [type data].
  by rewrite lookup_singleton_eq.
Qed.

Lemma apply_all_cons event events g :
  apply_all (event :: events) g = apply_all events (update_execution event g).1.
Proof. done. Qed.

Lemma apply_all_snoc events event g :
  apply_all (events ++ [event]) g = (update_execution event (apply_all events g)).1.
Proof. unfold apply_all. by rewrite foldl_snoc. Qed.

(** ** The path over a run *)

Lemma execution_path_started event g :
  execution_path (update_execution event g).1 =
    match started_id event with
    | Some n => add_new (execution_path g) n
    | None => execution_path g
    end.
Proof.
  unfold update_execution, started_id.
  destruct (type event); cbn [fst]; try done.
  - destruct (data event !! "node_id") as [n|]; [|done].
    destruct (truthy n); [|done]. apply execution_path_update.
  - destruct (data event !! "node_id") as [n|]; [|done].
    destruct (truthy n && _); [|done]. by rewrite execution_path_display.
  - apply end_of_run_fields.
  - apply end_of_run_fields.
Qed.

Lemma runtime_step event g : runtime (update_execution event g).1 = runtime g.
Proof.
  unfold update_execution.
  destruct (type event); cbn [fst]; try done.
  - destruct (data event !! "node_id") as [n|]; [|done].
    destruct (truthy n); [|done]. apply runtime_update.
  - destruct (data event !! "node_id") as [n|]; [|done].
    destruct (truthy n && _); [|done]. by rewrite runtime_display.
  - apply end_of_run_fields.
  - apply end_of_run_fields.
Qed.

Lemma omap_started_cons event events :
  omap started_id (event :: events) =
    match started_id event with
    | Some n => n :: omap started_id events
    | None => omap started_id events
    end.
Proof. done. Qed.

Lemma execution_path_run events g :
  execution_path (apply_all events g)
    = foldl add_new (execution_path g) (omap started_id events).
Proof.
  revert g. induction events as [|e events IH]; intros g; [done|].
  rewrite apply_all_cons, IH, execution_path_started, omap_started_cons.
  by destruct (started_id e).
Qed.

(** [update_execution] never takes an entry off the path and appends at most
    the started node, when it is new. *)
Lemma execution_path_step event g :
  execution_path (update_execution event g).1 = execution_path g
  ∨ ∃ n, (n ∉ execution_path g)
         ∧ execution_path (update_execution event g).1 = execution_path g ++ [n].
Proof.
  rewrite execution_path_started. destruct (started_id event) as [n|]; [|by left].
  unfold add_new. case_bool_decide; eauto.
Qed.

Lemma NoDup_step event g :
  NoDup (execution_path g) → NoDup (execution_path (update_execution event g).1).
Proof.
  intros Hnd. destruct (execution_path_step event g) as [-> | (n & Hn & ->)]; [done|].
  apply NoDup_app. split_and!; [done | | apply NoDup_singleton].
  intros x Hx ->%list_elem_of_singleton. done.
Qed.

Lemma NoDup_apply_all events g :
  NoDup (execution_path g) → NoDup (execution_path (apply_all events g)).
Proof.
  revert g. induction events as [|e events IH]; intros g Hg; [done|].
  rewrite apply_all_cons. by apply IH, NoDup_step.
Qed.

(** No event makes the empty string the highlight. *)
Lemma active_node_step event g :
  active_node g ≠ Some "" → active_node (update_execution event g).1 ≠ Some "".
Proof.
  intros Hg. unfold update_execution.
  destruct (type event); cbn [fst]; try done.
  - destruct (data event !! "node_id") as [n|]; [|done].
    destruct (truthy n) eqn:Hn; [|done].
    rewrite active_node_update. apply truthy_true in Hn. congruence.
  - destruct (data event !! "node_id") as [n|]; [|done].
    destruct (truthy n && _); [|done]. by rewrite active_node_display.
  - destruct (end_of_run_fields complete_banner g) as (_ & _ & [-> | ->] & _); done.
  - destruct (end_of_run_fields
                (failed_prefix +:+ default "Unknown error" (data event !! "error")) g)
      as (_ & _ & [-> | ->] & _); done.
Qed.

Lemma reachable_active_node g : reachable g → active_node g ≠ Some "".
Proof.
  intros (rt & events & ->).
  induction events as [|e events IH] using rev_ind; [done|].
  rewrite apply_all_snoc. by apply active_node_step.
Qed.

End ExecutionState.

(** * The state machine of the highlight *)

Section StateMachine.

Import GraphView Observe NodeRun.

Context {markup : Markup}.

Implicit Types (g : GraphOverview) (n : string) (event : Event).

(** ** Starting a node *)

(** C2, as stated, fails: after ["a"] and ["b"] were started the path ends in
    ["b"], so the last-entry rule would append ["a"] again on its restart; the
    widget leaves the path alone, ["a"] being on it already. *)
Lemma node_started_last_entry_rule_fails :
  let s := apply_all (markup := sample_markup)
             [NodeStarted "a"; NodeStarted "b"] (init sample_runtime) in
  let s' := (update_execution (markup := sample_markup) (NodeStarted "a") s).1 in
  ¬ (execution_path s' = execution_path s ++ ["a"]
     ↔ execution_path s = [] ∨ last (execution_path s) ≠ Some "a").
Proof.
  intros s s' [_ Hrule].
  assert (Hs : execution_path s = ["a"; "b"]) by (by vm_compute).
  assert (Hs' : execution_path s' = ["a"; "b"]) by (by vm_compute).
  rewrite Hs, Hs' in Hrule.
  discriminate Hrule. right. by cbn.
Qed.

(** C2, amended: for every state and every non-empty node-id [n], a
    [NodeStarted] of [n] makes [n] the active node and appends [n] to the
    path exactly when [n] occurs nowhere on the path; when [n] is on the path
    already, in particular as its last entry, the path stays as it is. *)
Theorem node_started_appends_when_absent g n :
  n ≠ "" →
  let g' := (update_execution (NodeStarted n) g).1 in
  active_node g' = Some n
  ∧ (execution_path g' = execution_path g ++ [n] ↔ n ∉ execution_path g)
  ∧ (n ∈ execution_path g → execution_path g' = execution_path g)
  ∧ (last (execution_path g) = Some n → execution_path g' = execution_path g).
Proof.
  intros Hn g'. subst g'. rewrite update_execution_started by done.
  rewrite active_node_update, execution_path_update.
  split_and!; [done | | |].
  - case_bool_decide as Hin; split; try done.
    intros Heq%(f_equal length). rewrite length_app in Heq. cbn in Heq. lia.
  - intros Hin. by rewrite bool_decide_eq_true_2.
  - intros Hlast. rewrite bool_decide_eq_true_2; [done|].
    apply last_Some in Hlast as [l' ->].
    apply elem_of_app. right. by apply list_elem_of_singleton.
Qed.


(** ** The end of a run *)

Lemma strip_prefix_app p s : strip_prefix p (p +:+ s) = Some s.
Proof.
  induction p as [|a p IH]; [done|].
  change (String a p +:+ s) with (String a (p +:+ s)).
  cbn. by rewrite bool_decide_eq_true_2.
Qed.

Lemma failed_line_not_complete error : failed_prefix +:+ error ≠ complete_banner.
Proof.
  intros H. apply (f_equal (String.substring 6 1)) in H.
  vm_compute in H. discriminate H.
Qed.

Lemma terminal_status_complete g :
  last (display g) = Some complete_banner → terminal_status g = Some ok.
Proof. intros Hl. unfold terminal_status. by rewrite Hl. Qed.

Lemma terminal_status_failed g error :
  last (display g) = Some (failed_prefix +:+ error) →
  terminal_status g = Some (failed error).
Proof.
  intros Hl. unfold terminal_status. rewrite Hl.
  rewrite bool_decide_eq_false_2 by apply failed_line_not_complete.
  by rewrite strip_prefix_app.
Qed.

Lemma terminal_status_empty_line g :
  last (display g) = Some "" → terminal_status g = None.
Proof. intros Hl. unfold terminal_status. by rewrite Hl. Qed.

Lemma last_two {A} (l : list A) x y : last (l ++ [x; y]) = Some y.
Proof. change (l ++ [x; y]) with (l ++ [x] ++ [y]). by rewrite app_assoc, last_snoc. Qed.

(** Where the two writes are accepted, the end of a run does what the spec
    says of it: no active node, the status shown, the path as before. *)
Lemma execution_end_sets_status g error :
  renders "" = true →
  (renders complete_banner = true →
   let r := update_execution ExecutionCompleted g in
   r.2 = Returned ∧ active_node r.1 = None ∧ terminal_status r.1 = Some ok
   ∧ execution_path r.1 = execution_path g)
  ∧ (renders (failed_prefix +:+ error) = true →
     let r := update_execution (ExecutionFailed error) g in
     r.2 = Returned ∧ active_node r.1 = None
     ∧ terminal_status r.1 = Some (failed error)
     ∧ execution_path r.1 = execution_path g).
Proof.
  intros He. split; intros Hb r; subst r.
  - rewrite update_execution_complete, end_of_run_returned by done.
    split_and!; try done.
    apply terminal_status_complete. apply last_two.
  - rewrite update_execution_failed, end_of_run_returned by done.
    split_and!; try done.
    apply terminal_status_failed. apply last_two.
Qed.

(** C3, the code at the failing input: when the log refuses the failure line
    (an error text that is not well-formed markup), the write raises before
    [active_node] is cleared: the call ends in the raise, the active node is
    the one before the event, and no failure is on the display. *)
Theorem execution_failed_bad_markup_keeps_active_node g error :
  renders "" = true → renders (failed_prefix +:+ error) = false →
  let r := update_execution (ExecutionFailed error) g in
  r.2 = Raised
  ∧ active_node r.1 = active_node g
  ∧ terminal_status r.1 = None
  ∧ display r.1 = display g ++ [""].
Proof.
  intros He Hb r. subst r.
  rewrite update_execution_failed, end_of_run_raised by done.
  split_and!; try done. apply terminal_status_empty_line. apply last_snoc.
Qed.


(** ** Completing a node *)

(** C5: a [NodeCompleted] of [n] clears the active node when [n] is the active
    node, leaves it alone when another node is, and never changes the path.
    A node-id is a non-empty string; of a reachable state, whose active node is
    never the empty string, this holds for the empty [n] too. *)
Theorem node_completed_clears_only_active g n :
  n ≠ "" ∨ active_node g ≠ Some "" →
  let g' := (update_execution (NodeCompleted n) g).1 in
  (active_node g = Some n → active_node g' = None)
  ∧ (active_node g ≠ Some n → active_node g' = active_node g)
  ∧ execution_path g' = execution_path g.
Proof.
  intros Hok g'. subst g'.
  destruct (decide (n = "")) as [-> | Hn].
  - rewrite update_execution_completed_empty.
    split_and!; [|done..]. intros Ha. destruct Hok; done.
  - rewrite update_execution_completed by done.
    case_bool_decide as Ha; cbn [fst];
      rewrite ?active_node_display, ?execution_path_display;
      split_and!; done.
Qed.


(** ** The path holds every node once *)

(** C10: after every sequence of events on the fresh widget no node-id occurs
    twice on the path, next to each other or apart: [update_active_node]
    appends the node only when it is absent from the whole path. *)
Theorem execution_path_no_duplicates rt events :
  NoDup (execution_path (apply_all events (init rt)))
  ∧ ∀ g n,
      execution_path (update_active_node n g).1 =
        if bool_decide (n ∈ execution_path g) then execution_path g
        else execution_path g ++ [n].
Proof.
  split.
  - apply NoDup_apply_all. cbn. apply NoDup_nil_2.
  - intros g n. apply execution_path_update.
Qed.

(** ** The active node after a run of node events *)

Lemma matched_later_cons n e rest :
  matched_later n (e :: rest) = completes n e || matched_later n rest.
Proof. done. Qed.

(** The highlight after a run from any state: the latest start of the run
    decides; a run without a start can only clear what was active before. *)
Lemma active_node_run events g :
  Forall (λ e, node_of e ≠ "") events →
  active_node (apply_all (map to_event events) g) =
    match latest_start events with
    | Some (n, rest) => if matched_later n rest then None else Some n
    | None =>
        match active_node g with
        | Some a => if matched_later a events then None else Some a
        | None => None
        end
    end.
Proof.
  intros Hev. revert g.
  induction Hev as [|e events He _ IH]; intros g.
  - cbn. by destruct (active_node g).
  - cbn [map]. rewrite apply_all_cons, IH. cbn [latest_start].
    destruct (latest_start events) as [[m rest]|]; [done|].
    destruct e as [n|n]; cbn in He; cbn [to_event].
    + rewrite update_execution_started by done.
      by rewrite active_node_update.
    + rewrite update_execution_completed by done.
      case_bool_decide as Ha; cbn [fst].
      * rewrite active_node_display, <- Ha. cbn [set_active_node active_node].
        rewrite matched_later_cons. cbn [completes].
        by rewrite bool_decide_eq_true_2.
      * destruct (active_node g) as [a|]; [|done].
        rewrite matched_later_cons. cbn [completes].
        rewrite bool_decide_eq_false_2; [done|]. congruence.
Qed.

(** C1, as stated, fails: after ["a"] and ["b"] were started and ["b"] was
    completed, the start of ["a"] is the latest one without a completion, yet
    the widget shows no active node. *)
Lemma active_node_latest_unmatched_fails :
  let events := [Started "a"; Started "b"; Completed "b"] in
  let g := apply_all (markup := sample_markup) (map to_event events) (init sample_runtime) in
  latest_unmatched_start events = Some "a"
  ∧ active_node g = None
  ∧ active_node g ≠ latest_unmatched_start events.
Proof. by vm_compute. Qed.

(** C1, amended: for every sequence of [NodeStarted] and [NodeCompleted]
    events with non-empty node-ids, applied in order to the fresh widget, the
    active node is the node of the latest [NodeStarted] of the sequence when no
    [NodeCompleted] of that node follows it, and none otherwise (also when an
    earlier start is still without its completion). *)
Theorem active_node_open_latest_start rt events :
  Forall (λ e, node_of e ≠ "") events →
  active_node (apply_all (map to_event events) (init rt)) = open_latest_start events.
Proof.
  intros Hev. rewrite active_node_run by done.
  unfold open_latest_start. by destruct (latest_start events) as [[n rest]|].
Qed.


(** Where at most the latest start is open the two readings agree: a run in
    which every start but the last is completed before the next node starts. *)
Lemma readings_agree_sequential events n :
  latest_unmatched_start events = None →
  latest_unmatched_start (events ++ [Started n]) = open_latest_start (events ++ [Started n]).
Proof.
  intros Hnone.
  assert (Hl : ∀ evs, latest_start (evs ++ [Started n]) = Some (n, [])).
  { induction evs as [|e evs IH]; [done|]. cbn. by rewrite IH. }
  unfold open_latest_start. rewrite Hl. cbn.
  revert Hnone. induction events as [|e events IH]; [done|].
  destruct e as [m|m]; cbn; [|done].
  destruct (latest_unmatched_start events) eqn:Hrest; [done|].
  intros Hm. by rewrite IH.
Qed.

(** ** Events the widget does not know *)

Lemma set_graph_view_id a : App.set_graph_view (App.graph_view a) a = a.
Proof. by destruct a. Qed.

(** C6, as stated, fails: an [ExecutionFailed] without its [error] field is
    not ignored; it clears the active node and reports a failure. *)
Lemma failed_without_error_changes_state :
  let s := apply_all (markup := sample_markup) [NodeStarted "n1"] (init sample_runtime) in
  let s' := (update_execution (markup := sample_markup) (mkEvent EXECUTION_FAILED ∅) s).1 in
  s' ≠ s ∧ active_node s = Some "n1" ∧ active_node s' = None
  ∧ terminal_status s' = Some (failed "Unknown error").
Proof.
  intros s s'. split_and!; [|by vm_compute..].
  intros H%(f_equal active_node). vm_compute in H. discriminate H.
Qed.

(** C6, amended: an event of an unrecognized variant, an object without a
    [type] or whose [type] has no [value], and a [NodeStarted] or
    [NodeCompleted] without a node-id (or with an empty one) leave the state
    as it is and raise nothing; an [ExecutionFailed] without an [error] is
    applied as a failure with the text ["Unknown error"]. *)
Theorem unrecognized_events_leave_state g a v d :
  update_execution (mkEvent (OTHER_EVENT v) d) g = (g, Returned)
  ∧ update_execution (mkEvent NODE_STARTED (delete "node_id" d)) g = (g, Returned)
  ∧ update_execution (mkEvent NODE_COMPLETED (delete "node_id" d)) g = (g, Returned)
  ∧ update_execution (NodeStarted "") g = (g, Returned)
  ∧ update_execution (NodeCompleted "") g = (g, Returned)
  ∧ App._handle_event_sync (App.Typed (mkEvent (OTHER_EVENT v) d)) a = a
  ∧ App._handle_event_sync App.TypeWithoutValue a = a
  ∧ App._handle_event_sync App.WithoutType a = a
  ∧ update_execution (mkEvent EXECUTION_FAILED (delete "error" d)) g
      = update_execution (ExecutionFailed "Unknown error") g.
Proof.
  split_and!; try done.
  - unfold update_execution. cbn. by rewrite lookup_delete_eq.
  - unfold update_execution. cbn. by rewrite lookup_delete_eq.
  - unfold App._handle_event_sync. destruct (App.is_ready a); cbn [negb]; [|done].
    case_match; [|done]. apply set_graph_view_id.
  - unfold App._handle_event_sync. by destruct (App.is_ready a).
  - unfold App._handle_event_sync. by destruct (App.is_ready a).
  - unfold update_execution, ExecutionFailed. cbn [type data].
    by rewrite lookup_delete_eq, lookup_singleton_eq.
Qed.






End StateMachine.

Section StateMachineExamples.

Import GraphView Observe NodeRun.

Lemma node_started_appends_when_absent_witness :
  let g := apply_all (markup := sample_markup)
             [NodeStarted "a"; NodeStarted "b"] (init sample_runtime) in
  let g' := (update_execution (markup := sample_markup) (NodeStarted "a") g).1 in
  active_node g' = Some "a"
  ∧ (execution_path g' = execution_path g ++ ["a"] ↔ "a" ∉ execution_path g)
  ∧ ("a" ∈ execution_path g → execution_path g' = execution_path g)
  ∧ (last (execution_path g) = Some "a" → execution_path g' = execution_path g).
Proof.
  intros g.
  apply (node_started_appends_when_absent (markup := sample_markup) g "a").
  discriminate.
Defined.

Lemma execution_failed_bad_markup_keeps_active_node_witness :
  let g := apply_all (markup := sample_markup) [NodeStarted "n1"] (init sample_runtime) in
  let r := update_execution (markup := sample_markup) (ExecutionFailed "bad [/x] tag") g in
  r.2 = Raised ∧ active_node r.1 = Some "n1" ∧ terminal_status r.1 = None.
Proof.
  intros g.
  destruct (execution_failed_bad_markup_keeps_active_node
              (markup := sample_markup) g "bad [/x] tag") as (Hr & Ha & Ht & _);
    [by vm_compute | by vm_compute |].
  split_and!; [exact Hr | | exact Ht].
  etrans; [exact Ha | by vm_compute].
Defined.

Lemma node_completed_clears_only_active_witness :
  let g := apply_all (markup := sample_markup) [NodeStarted "n1"] (init sample_runtime) in
  let g' := (update_execution (markup := sample_markup) (NodeCompleted "n1") g).1 in
  (active_node g = Some "n1" → active_node g' = None)
  ∧ (active_node g ≠ Some "n1" → active_node g' = active_node g)
  ∧ execution_path g' = execution_path g.
Proof.
  intros g.
  apply (node_completed_clears_only_active (markup := sample_markup) g "n1").
  left. discriminate.
Defined.

Lemma active_node_open_latest_start_witness :
  let events := [Started "a"; Started "b"; Completed "a"; Completed "b"; Started "c"] in
  Forall (λ e, node_of e ≠ "") events
  ∧ active_node (apply_all (markup := sample_markup) (map to_event events)
                   (init sample_runtime)) = Some "c".
Proof.
  intros events.
  assert (Hev : Forall (λ e, node_of e ≠ "") events)
    by (repeat constructor; discriminate).
  split; [exact Hev|].
  exact (active_node_open_latest_start (markup := sample_markup) sample_runtime events Hev).
Defined.

End StateMachineExamples.


(** * The event hand-off, as far as one thread shows it *)

Section EventHandOff.

Import GraphView App.

Context {markup : Markup}.

Implicit Types (a : AdenTUI) (obj : EventObject) (h : HandOff) (hs : list HandOff).

Lemma handle_event_sync_accepted obj a :
  _handle_event_sync obj a =
    match accepted obj with
    | Some event =>
        if is_ready a
        then set_graph_view (update_execution event (graph_view a)).1 a
        else a
    | None => a
    end.
Proof.
  unfold _handle_event_sync, accepted.
  destruct (is_ready a), obj; cbn [negb]; try done; by case_match.
Qed.

Lemma safe_event_handler_delivered h a :
  safe_event_handler h a =
    match delivered h with
    | Some event =>
        if is_ready a
        then set_graph_view (update_execution event (graph_view a)).1 a
        else a
    | None => a
    end.
Proof.
  unfold safe_event_handler, delivered.
  destruct (arrives h); [apply handle_event_sync_accepted | done].
Qed.

Lemma submit_all_cons h hs a :
  submit_all (h :: hs) a = submit_all hs (safe_event_handler h a).
Proof. done. Qed.

Lemma omap_delivered_cons h hs :
  omap delivered (h :: hs) =
    match delivered h with
    | Some event => event :: omap delivered hs
    | None => omap delivered hs
    end.
Proof. done. Qed.

(** While the application is not ready every hand-off is skipped. *)
Lemma submit_all_not_ready hs a : is_ready a = false → submit_all hs a = a.
Proof.
  intros Hr. induction hs as [|h hs IH]; [done|].
  rewrite submit_all_cons, safe_event_handler_delivered, Hr.
  by destruct (delivered h).
Qed.

(** While it is ready, the events that arrive and pass the gate are applied
    one by one in the order of the calls. *)
Lemma submit_all_ready hs a :
  is_ready a = true →
  submit_all hs a = set_graph_view (apply_all (omap delivered hs) (graph_view a)) a.
Proof.
  revert a. induction hs as [|h hs IH]; intros a Hr.
  - cbn. by destruct a.
  - rewrite submit_all_cons, safe_event_handler_delivered, omap_delivered_cons.
    destruct (delivered h) as [event|]; [|by apply IH].
    rewrite Hr, IH by done. by destruct a.
Qed.

Lemma submit_all_state hs a :
  submit_all hs a =
    mkAdenTUI
      (if is_ready a then apply_all (omap delivered hs) (graph_view a) else graph_view a)
      (log_pane a) (is_ready a) (log_queue a) (queue_handler a).
Proof.
  destruct (is_ready a) eqn:Hr.
  - rewrite submit_all_ready by done. destruct a. cbn in *. by subst.
  - rewrite submit_all_not_ready by done. destruct a. cbn in *. by subst.
Qed.

End EventHandOff.

(** * Properties of the log relay *)

Section LogRelay.

Import LogPaneWidget App.

Context {markup : Markup}.

Implicit Types (a : AdenTUI) (w : World) (h : Handler) (p : LogPane)
  (records q : list LogRecord).

(** ** The root logger's handlers *)

Lemma removeHandler_head h hs : removeHandler h (h :: hs) = hs.
Proof.
  unfold removeHandler. rewrite bool_decide_eq_true_2 by apply list_elem_of_here.
  cbn. by rewrite bool_decide_eq_true_2.
Qed.

Lemma remove_all_handlers_nil hs : remove_all_handlers hs = [].
Proof.
  unfold remove_all_handlers.
  induction hs as [|h hs IH]; [done|].
  cbn [foldl]. by rewrite removeHandler_head.
Qed.

Lemma setup_root_handlers fresh w :
  root_handlers (logging (_setup_logging_queue fresh w)) = [mkHandler fresh INFO].
Proof.
  unfold _setup_logging_queue. cbn. by rewrite remove_all_handlers_nil.
Qed.

(** C8, as stated, fails: a sink installed before the dashboard starts is
    removed by the start and is not back after the stop. *)
Lemma prior_sinks_not_restored :
  let w := sample_world [mkHandler 0 0] in
  let w' := on_unmount (on_mount 1 w) in
  root_handlers (logging w') ≠ root_handlers (logging w)
  ∧ root_handlers (logging w') = []
  ∧ root_level (logging w') ≠ root_level (logging w).
Proof. intros w w'. split_and!; by vm_compute. Qed.

(** C8, amended: the start removes every sink it finds on the root logger,
    keeping none of them, and installs the queue handler as the only sink; the
    stop removes that queue handler and nothing else.  After a start and a
    stop the root logger has no sink and its level is [INFO]: the sinks are as
    before exactly when there were none. *)
Theorem start_stop_leaves_no_sink fresh w :
  let w' := on_unmount (on_mount fresh w) in
  root_handlers (logging (on_mount fresh w)) = [mkHandler fresh INFO]
  ∧ root_handlers (logging w') = []
  ∧ root_level (logging w') = INFO
  ∧ (root_handlers (logging w') = root_handlers (logging w)
     ↔ root_handlers (logging w) = []).
Proof.
  intros w'.
  assert (Hstart : root_handlers (logging (on_mount fresh w)) = [mkHandler fresh INFO])
    by apply setup_root_handlers.
  assert (Hstop : root_handlers (logging w') = []).
  { subst w'. unfold on_unmount. cbn [on_mount app logging set_is_ready queue_handler].
    cbn [_setup_logging_queue app set_queue_handler queue_handler root_handlers logging].
    rewrite remove_all_handlers_nil. cbn. apply removeHandler_head. }
  split_and!; [done | done | done |].
  rewrite Hstop. split; intros; done.
Qed.

(** ** Pushing and draining *)

Lemma set_log_queue_id a : set_log_queue (log_queue a) a = a.
Proof. by destruct a. Qed.

Lemma push_all_queue records a h :
  queue_handler a = Some h →
  push_all records a =
    set_log_queue
      (log_queue a ++ List.filter (λ r, bool_decide (hlevel h ≤ levelno r)) records) a.
Proof.
  revert a. induction records as [|r records IH]; intros a Hh.
  - cbn. rewrite app_nil_r. by rewrite set_log_queue_id.
  - change (push_all (r :: records) a) with (push_all records (push r a)).
    unfold push at 1. rewrite Hh. cbn [List.filter].
    case_bool_decide.
    + rewrite IH by done. unfold set_log_queue. cbn. by rewrite <- app_assoc.
    + by apply IH.
Qed.

Lemma poll_loop_written q p :
  (poll_loop q p).2 = map format (List.filter (λ r, negb (noisy r)) q).
Proof.
  revert p. induction q as [|r q IH]; intros p; [done|].
  cbn [poll_loop List.filter]. destruct (noisy r); cbn [negb]; [apply IH|].
  specialize (IH (write_log (format r) p)).
  destruct (poll_loop q _) as [p' written]. cbn [fst snd map] in *. by rewrite IH.
Qed.

Lemma poll_loop_pane q p :
  (poll_loop q p).1 = foldl (λ p msg, write_log msg p) p (poll_loop q p).2.
Proof.
  revert p. induction q as [|r q IH]; intros p; [done|].
  cbn [poll_loop]. destruct (noisy r); [apply IH|].
  specialize (IH (write_log (format r) p)).
  destruct (poll_loop q _) as [p' written]. cbn [fst snd foldl] in *. by rewrite IH.
Qed.

(** A mounted pane takes the messages its log accepts, in order; a refused
    message is gone. *)
Lemma write_log_all_mounted p msgs :
  is_mounted p = true → log_is_mounted p = true →
  main_log (foldl (λ p msg, write_log msg p) p msgs)
    = main_log p ++ List.filter renders msgs.
Proof.
  revert p. induction msgs as [|m msgs IH]; intros p Hm Hl; cbn [foldl List.filter].
  - by rewrite app_nil_r.
  - unfold write_log at 2. rewrite Hm, Hl. cbn [negb].
    destruct (renders m); [|by apply IH].
    rewrite IH by done. cbn. by rewrite <- app_assoc.
Qed.

Lemma poll_logs_ready a :
  is_ready a = true →
  _poll_logs a =
    (set_log_pane (poll_loop (log_queue a) (log_pane a)).1 (set_log_queue [] a),
     map format (List.filter (λ r, negb (noisy r)) (log_queue a))).
Proof.
  intros Hr. unfold _poll_logs. rewrite Hr. cbn [negb].
  rewrite <- (poll_loop_written (log_queue a) (log_pane a)).
  by destruct (poll_loop _ _).
Qed.

Lemma filter_replicate_true {A} (f : A → bool) n x :
  f x = true → List.filter f (replicate n x) = replicate n x.
Proof. intros Hx. induction n as [|n IH]; [done|]. cbn. by rewrite Hx, IH. Qed.

Lemma filter_all_true {A} (f : A → bool) (l : list A) :
  Forall (λ x, f x = true) l → List.filter f l = l.
Proof. induction 1 as [|x l Hx _ IH]; [done|]. cbn. by rewrite Hx, IH. Qed.

(** Pushes into the empty queue of a ready application, then one poll. *)
Lemma push_then_drain a h records :
  is_ready a = true → queue_handler a = Some h → log_queue a = [] →
  let queued := log_queue (push_all records a) in
  let drained := _poll_logs (push_all records a) in
  queued = List.filter (λ r, bool_decide (hlevel h ≤ levelno r)) records
  ∧ drained.2 = map format (List.filter (λ r, negb (noisy r)) queued)
  ∧ log_queue drained.1 = []
  ∧ (is_mounted (log_pane a) = true → log_is_mounted (log_pane a) = true →
     main_log (log_pane drained.1)
       = main_log (log_pane a) ++ List.filter renders drained.2).
Proof.
  intros Hr Hh Hq queued drained. subst queued drained.
  rewrite (push_all_queue records a h Hh), Hq. cbn [app].
  rewrite poll_logs_ready by (by destruct a).
  cbn [fst snd]. split_and!; try by destruct a.
  intros Hm Hl. cbn [set_log_pane set_log_queue log_pane log_queue].
  rewrite poll_loop_pane, poll_loop_written.
  apply write_log_all_mounted; by destruct a.
Qed.

(** C9: the drain hands on the queued records in the order of their push,
    leaving out those whose logger name starts with a noisy prefix; the push
    looks at the level only, so a noisy record that reaches the queue handler
    is queued like any other and goes away only at the drain.  Of the
    messages handed on, a mounted pane shows those its log accepts. *)
Theorem drain_is_fifo_and_filters_names a h records :
  is_ready a = true → queue_handler a = Some h → log_queue a = [] →
  let queued := log_queue (push_all records a) in
  let drained := _poll_logs (push_all records a) in
  queued = List.filter (λ r, bool_decide (hlevel h ≤ levelno r)) records
  ∧ drained.2 = map format (List.filter (λ r, negb (noisy r)) queued)
  ∧ log_queue drained.1 = []
  ∧ (is_mounted (log_pane a) = true → log_is_mounted (log_pane a) = true →
     main_log (log_pane drained.1)
       = main_log (log_pane a) ++ List.filter renders drained.2).
Proof. apply push_then_drain. Qed.



(** C7, amended: the relay's queue has no bound and drops nothing: however
    many records are pushed at or above the handler's level, all of them stay
    queued, and the drain hands on every one whose logger name is not noisy,
    in the order of the pushes. *)
Theorem drain_returns_every_record a h records :
  is_ready a = true → queue_handler a = Some h → log_queue a = [] →
  Forall (λ r, hlevel h ≤ levelno r) records →
  log_queue (push_all records a) = records
  ∧ (_poll_logs (push_all records a)).2
      = map format (List.filter (λ r, negb (noisy r)) records)
  ∧ (Forall (λ r, noisy r = false) records →
     (_poll_logs (push_all records a)).2 = map format records
     ∧ length (_poll_logs (push_all records a)).2 = length records).
Proof.
  intros Hr Hh Hq Hlevel.
  destruct (push_then_drain a h records Hr Hh Hq) as (Hqueued & Hd & _).
  cbn zeta in Hqueued, Hd.
  rewrite filter_all_true in Hqueued.
  2: { eapply Forall_impl; [exact Hlevel|]. intros r Hl. by apply bool_decide_eq_true_2. }
  rewrite Hqueued in Hd. split_and!; [done | done |].
  intros Hquiet. rewrite Hd, filter_all_true.
  - split; [done | by rewrite length_map].
  - eapply Forall_impl; [exact Hquiet|]. intros r Hn. cbn beta in *. by rewrite Hn.
Qed.



End LogRelay.

Section LogRelayExamples.

Import LogPaneWidget App.

(** C7, as stated, fails: the queue is created without a bound, so for every
    candidate bound a longer run of pushes is drained in full. *)
Lemma log_queue_has_no_bound :
  let a := app (on_mount 1 (sample_world [])) in
  ¬ ∃ bound, ∀ records, bound < length records →
      length (_poll_logs (markup := sample_markup) (push_all records a)).2 ≤ bound
      ∧ (_poll_logs (markup := sample_markup) (push_all records a)).2
          = map format (last_k bound records).
Proof.
  intros a [bound Hbound].
  destruct (Hbound (replicate (S bound) (sample_record "agent"))) as [Hlen _].
  { rewrite length_replicate. lia. }
  destruct (push_then_drain (markup := sample_markup) a (mkHandler 1 INFO)
              (replicate (S bound) (sample_record "agent"))
              eq_refl eq_refl eq_refl) as (Hq & Hd & _).
  rewrite Hd, Hq in Hlen.
  rewrite !filter_replicate_true in Hlen by done.
  rewrite length_map, length_replicate in Hlen. lia.
Qed.

Lemma drain_is_fifo_and_filters_names_witness :
  let a := app (on_mount 1 (sample_world [mkHandler 0 0])) in
  let records :=
    [sample_record "agent"; sample_record "textual.app"; mkLogRecord 10 "agent" "dbg";
     mkLogRecord 40 "LiteLLM Router" "retry"; mkLogRecord 40 "agent.node" "failed"] in
  log_queue (push_all records a)
    = [sample_record "agent"; sample_record "textual.app";
       mkLogRecord 40 "LiteLLM Router" "retry"; mkLogRecord 40 "agent.node" "failed"]
  ∧ (_poll_logs (markup := sample_markup) (push_all records a)).2 = ["tick"; "failed"].
Proof.
  intros a records.
  destruct (drain_is_fifo_and_filters_names (markup := sample_markup)
              a (mkHandler 1 INFO) records eq_refl eq_refl eq_refl) as (Hq & Hd & _).
  split; [rewrite Hq | rewrite Hd, Hq]; by vm_compute.
Defined.

Lemma drain_returns_every_record_witness :
  let a := app (on_mount 1 (sample_world [])) in
  let records := replicate 1000 (sample_record "agent") in
  length (_poll_logs (markup := sample_markup) (push_all records a)).2 = 1000.
Proof.
  intros a records.
  assert (Hlevel : Forall (λ r, hlevel (mkHandler 1 INFO) ≤ levelno r) records).
  { apply Forall_replicate. cbn. lia. }
  destruct (drain_returns_every_record (markup := sample_markup) a (mkHandler 1 INFO)
              records eq_refl eq_refl eq_refl Hlevel) as (_ & _ & Hall).
  destruct Hall as [_ Hlen]; [by apply Forall_replicate|].
  rewrite Hlen. apply length_replicate.
Defined.

End LogRelayExamples.


(** * Further properties of the graph widget *)

Section GraphWidget.

Import GraphView Observe.

Context {markup : Markup}.

Implicit Types (g : GraphOverview) (n : string) (event : Event) (node : Node).

(** ** What a redraw depends on *)

Lemma display_graph_set_display d g : _display_graph (set_display d g) = _display_graph g.
Proof. done. Qed.

Lemma display_graph_twice g : _display_graph (_display_graph g).1 = _display_graph g.
Proof. rewrite display_graph_state. apply display_graph_set_display. Qed.

Lemma display_graph_returned g :
  (_display_graph g).2 = Returned → display (_display_graph g).1 = graph_lines g.
Proof.
  intros Hr. rewrite display_display.
  by apply (write_lines_returned _ (set_display [] g)).
Qed.

(** ** The path over a run *)

Lemma elem_of_add_new path n m : m ∈ add_new path n ↔ m ∈ path ∨ m = n.
Proof.
  unfold add_new. case_bool_decide as Hin.
  - split; [auto | by intros [? | ->]].
  - by rewrite elem_of_app, list_elem_of_singleton.
Qed.

Lemma add_new_twice path n : add_new (add_new path n) n = add_new path n.
Proof.
  unfold add_new at 1. rewrite bool_decide_eq_true_2; [done|].
  apply elem_of_add_new. by right.
Qed.

Lemma elem_of_foldl_add_new ids path m :
  m ∈ foldl add_new path ids ↔ m ∈ path ∨ m ∈ ids.
Proof.
  revert path. induction ids as [|n ids IH]; intros path; cbn [foldl].
  - split; [auto | intros [? | Hnil]; [done | by apply elem_of_nil in Hnil]].
  - rewrite IH, elem_of_add_new, elem_of_cons. tauto.
Qed.

Lemma prefix_add_new path n : path `prefix_of` add_new path n.
Proof. unfold add_new. case_bool_decide; [done|]. by apply prefix_app_r. Qed.

Lemma prefix_foldl_add_new ids path : path `prefix_of` foldl add_new path ids.
Proof.
  revert path. induction ids as [|n ids IH]; intros path; cbn [foldl]; [done|].
  etrans; [apply prefix_add_new | apply IH].
Qed.

(** X1: events only ever append to the path: the path before a run is a prefix
    of the path after it, and the runtime the widget draws is never replaced. *)
Theorem execution_path_only_grows events g :
  execution_path g `prefix_of` execution_path (apply_all events g)
  ∧ runtime (apply_all events g) = runtime g.
Proof.
  split.
  - rewrite execution_path_run. apply prefix_foldl_add_new.
  - revert g. induction events as [|e events IH]; intros g; [done|].
    rewrite apply_all_cons, IH. apply runtime_step.
Qed.

(** X2: the path after a run is the path before it with the started nodes
    added in the order of their first start; on the fresh widget a node is on
    the path exactly when some [NODE_STARTED] with that non-empty node-id was
    applied. *)
Theorem execution_path_lists_started_nodes events g rt n :
  execution_path (apply_all events g)
    = foldl add_new (execution_path g) (omap started_id events)
  ∧ (n ∈ execution_path (apply_all events (init rt)) ↔ n ∈ omap started_id events)
  ∧ (n ∈ execution_path (apply_all events (init rt)) → n ≠ "").
Proof.
  assert (Hin : n ∈ execution_path (apply_all events (init rt))
                ↔ n ∈ omap started_id events).
  { rewrite execution_path_run, elem_of_foldl_add_new. cbn.
    split; [intros [Hnil | ?]; [by apply elem_of_nil in Hnil | done] | auto]. }
  split_and!; [apply execution_path_run | done |].
  rewrite Hin. intros (e & He & Hn)%list_elem_of_omap.
  unfold started_id in Hn. destruct (type e); try done.
  destruct (data e !! "node_id") as [m|]; [|done].
  destruct (truthy m) eqn:Hm; [|done].
  injection Hn as ->. by apply truthy_true.
Qed.

(** ** Repeated events *)

Lemma update_active_node_unfold n g :
  update_active_node n g =
    _display_graph
      (set_execution_path (add_new (execution_path g) n) (set_active_node (Some n) g)).
Proof.
  unfold update_active_node, add_new. cbn [execution_path set_active_node].
  destruct (decide (n ∈ execution_path g)) as [Hin | Hin].
  - rewrite bool_decide_eq_false_2 by (intros Hn; by apply Hn).
    rewrite bool_decide_eq_true_2 by done. by destruct g.
  - rewrite bool_decide_eq_true_2 by done.
    by rewrite bool_decide_eq_false_2.
Qed.

Lemma update_active_node_twice n g :
  update_active_node n (update_active_node n g).1 = update_active_node n g.
Proof.
  rewrite !update_active_node_unfold, display_graph_state.
  destruct g as [rt a p d].
  unfold set_execution_path, set_active_node, set_display.
  cbn [execution_path runtime active_node display].
  by rewrite add_new_twice.
Qed.

(** X3: starting the same node twice in a row gives the very state that
    starting it once gives, the drawing included, and ends the same way. *)
Theorem node_started_twice_is_once g n :
  update_execution (NodeStarted n) (update_execution (NodeStarted n) g).1
    = update_execution (NodeStarted n) g.
Proof.
  destruct (decide (n = "")) as [-> | Hn].
  - by rewrite !update_execution_started_empty.
  - rewrite !update_execution_started by done. apply update_active_node_twice.
Qed.

Lemma update_execution_completed_stale n g :
  active_node g ≠ Some n → update_execution (NodeCompleted n) g = (g, Returned).
Proof.
  intros Ha. destruct (decide (n = "")) as [-> | Hn].
  - apply update_execution_completed_empty.
  - rewrite update_execution_completed by done.
    by rewrite bool_decide_eq_false_2.
Qed.

(** X4: a completion of a node that is not the active one changes nothing at
    all, not even the drawing, and raises nothing; hence completing the same
    node twice in a row leaves the state that completing it once leaves. *)
Theorem node_completed_twice_is_once g n :
  (active_node g ≠ Some n → update_execution (NodeCompleted n) g = (g, Returned))
  ∧ (update_execution (NodeCompleted n) (update_execution (NodeCompleted n) g).1).1
      = (update_execution (NodeCompleted n) g).1.
Proof.
  split; [apply update_execution_completed_stale|].
  destruct (decide (n = "")) as [-> | Hn].
  - by rewrite !update_execution_completed_empty.
  - rewrite update_execution_completed_stale; [done|].
    rewrite update_execution_completed by done.
    case_bool_decide; cbn [fst]; [|congruence].
    by rewrite active_node_display.
Qed.

(** ** What a redraw shows *)

Ltac plain_line_tac :=
  split; [intros Heq; cbv in Heq; discriminate Heq | by vm_compute].

Lemma node_line_plain g node : plain_line (node_line g node).
Proof. unfold node_line. repeat case_bool_decide; plain_line_tac. Qed.

Lemma graph_lines_plain g line : line ∈ graph_lines g → plain_line line.
Proof.
  unfold graph_lines. rewrite !elem_of_app.
  intros [H | [H | [H | [H | [H | [H | [H | H]]]]]]].
  - repeat (apply elem_of_cons in H as [-> | H]; [plain_line_tac|]).
    by apply elem_of_nil in H.
  - destruct (get_entry_points (runtime g)) as [|ep eps].
    + apply list_elem_of_singleton in H as ->. plain_line_tac.
    + apply elem_of_cons in H as [-> | H]; [plain_line_tac|].
      apply list_elem_of_fmap in H as (x & -> & _). plain_line_tac.
  - repeat (apply elem_of_cons in H as [-> | H]; [plain_line_tac|]).
    by apply elem_of_nil in H.
  - apply list_elem_of_fmap in H as (x & -> & _). apply node_line_plain.
  - apply list_elem_of_singleton in H as ->. plain_line_tac.
  - destruct (terminal_nodes (graph (runtime g))) as [|t ts].
    + by apply elem_of_nil in H.
    + apply elem_of_cons in H as [-> | H]; [plain_line_tac|].
      apply list_elem_of_fmap in H as (x & -> & _). plain_line_tac.
  - destruct (active_node g) as [a|]; [|by apply elem_of_nil in H].
    destruct (truthy a); [|by apply elem_of_nil in H].
    repeat (apply elem_of_cons in H as [-> | H]; [plain_line_tac|]).
    by apply elem_of_nil in H.
  - destruct (execution_path g) as [|x p]; [by apply elem_of_nil in H|].
    apply list_elem_of_singleton in H as ->. plain_line_tac.
Qed.

Lemma redraw_plain g line : line ∈ display (_display_graph g).1 → plain_line line.
Proof.
  rewrite display_display. intros Hin%elem_of_rendered.
  by apply (graph_lines_plain g).
Qed.

Lemma terminal_status_plain g line :
  last (display g) = Some line → plain_line line → terminal_status g = None.
Proof.
  intros Hlast [Hc Hf]. unfold terminal_status. rewrite Hlast.
  rewrite bool_decide_eq_false_2 by done. by rewrite Hf.
Qed.

Lemma terminal_status_redraw g : terminal_status (_display_graph g).1 = None.
Proof.
  destruct (last (display (_display_graph g).1)) as [line|] eqn:Hlast.
  - apply (terminal_status_plain _ line Hlast).
    apply (redraw_plain g). by apply last_Some_elem_of.
  - unfold terminal_status. by rewrite Hlast.
Qed.

(** X5: a redraw leaves neither banner on the display, so the outcome of a
    run is gone from the widget as soon as a node is started after it. *)
Theorem redraw_erases_terminal_status g n event :
  (∀ line, line ∈ display (_display_graph g).1 →
     line ≠ complete_banner ∧ strip_prefix failed_prefix line = None)
  ∧ terminal_status (_display_graph g).1 = None
  ∧ terminal_status (update_active_node n (update_execution event g).1).1 = None.
Proof.
  split_and!.
  - intros line Hin. by apply (redraw_plain g).
  - apply terminal_status_redraw.
  - unfold update_active_node. apply terminal_status_redraw.
Qed.

Lemma node_line_in_lines g node :
  node ∈ nodes (graph (runtime g)) → node_line g node ∈ graph_lines g.
Proof.
  intros Hin. unfold graph_lines. rewrite !elem_of_app.
  do 3 right. left. by apply list_elem_of_fmap_2.
Qed.

Lemma node_line_active g node :
  active_node g = Some (node_ident node) →
  node_line g node =
    "  ▶ [bold green]" +:+ node_ident node +:+ "[/bold green] ("
      +:+ default "unknown" (node_kind node) +:+ ")".
Proof. intros Ha. unfold node_line. by rewrite bool_decide_eq_true_2. Qed.

Lemma node_line_visited g node :
  active_node g ≠ Some (node_ident node) → node_ident node ∈ execution_path g →
  node_line g node =
    "  ✓ [dim]" +:+ node_ident node +:+ "[/dim] ("
      +:+ default "unknown" (node_kind node) +:+ ")".
Proof.
  intros Ha Hp. unfold node_line.
  by rewrite bool_decide_eq_false_2, bool_decide_eq_true_2.
Qed.

Lemma elem_of_path_started n g : n ∈ execution_path (update_active_node n g).1.
Proof.
  rewrite execution_path_update. case_bool_decide; [done|].
  apply elem_of_app. right. by apply list_elem_of_singleton.
Qed.

(** X6: a node of the graph is drawn with the running mark by the redraw of
    its start, and with the visited mark by the redraw of the completion that
    follows, whenever that redraw gets through without a raise. *)
Theorem node_marker_follows_events g node :
  node_ident node ≠ "" → node ∈ nodes (graph (runtime g)) →
  let n := node_ident node in
  let kind := default "unknown" (node_kind node) in
  let r1 := update_execution (NodeStarted n) g in
  let r2 := update_execution (NodeCompleted n) r1.1 in
  (r1.2 = Returned →
   ("  ▶ [bold green]" +:+ n +:+ "[/bold green] (" +:+ kind +:+ ")") ∈ display r1.1)
  ∧ (r2.2 = Returned →
     ("  ✓ [dim]" +:+ n +:+ "[/dim] (" +:+ kind +:+ ")") ∈ display r2.1).
Proof.
  intros Hn Hin n kind r1 r2. subst n kind r1 r2.
  rewrite update_execution_completed, !update_execution_started by done.
  rewrite active_node_update, bool_decide_eq_true_2 by done.
  rewrite update_active_node_unfold.
  set (g2 := set_execution_path (add_new (execution_path g) (node_ident node))
               (set_active_node (Some (node_ident node)) g)).
  split; intros Hret.
  - rewrite display_graph_returned by done.
    rewrite <- (node_line_active g2 node) by done.
    by apply node_line_in_lines.
  - rewrite display_graph_returned by done.
    rewrite <- (node_line_visited (set_active_node None (_display_graph g2).1) node).
    + apply node_line_in_lines. cbn [set_active_node runtime].
      by rewrite runtime_display.
    + done.
    + cbn [set_active_node execution_path]. rewrite execution_path_display.
      apply elem_of_add_new. by right.
Qed.


(** ** The path line *)

Lemma last_k_length {A} k (l : list A) : length (last_k k l) = k `min` length l.
Proof. unfold last_k. rewrite length_drop. lia. Qed.

Lemma last_k_short {A} k (l : list A) : length l ≤ k → last_k k l = l.
Proof. intros Hk. unfold last_k. by replace (length l - k) with 0 by lia. Qed.

Lemma last_graph_lines g :
  execution_path g ≠ [] →
  last (graph_lines g)
    = Some ("[dim]Path:[/dim] " +:+ join " → " (last_k 5 (execution_path g))).
Proof.
  intros Hp. unfold graph_lines.
  destruct (execution_path g) as [|x p] eqn:Hpath; [done|].
  rewrite !app_assoc. apply last_snoc.
Qed.

(** X7: what a redraw leaves on the display is always a prefix of its lines;
    with a non-empty path, a redraw that gets through without a raise ends in
    the path line, which names the last five nodes of the path in order (all
    of them when there are at most five); the stored path is not cut. *)
Theorem path_line_shows_last_five g :
  execution_path g ≠ [] →
  display (_display_graph g).1 `prefix_of` graph_lines g
  ∧ ((_display_graph g).2 = Returned →
     last (display (_display_graph g).1)
       = Some ("[dim]Path:[/dim] " +:+ join " → " (last_k 5 (execution_path g))))
  ∧ last_k 5 (execution_path g) `suffix_of` execution_path g
  ∧ length (last_k 5 (execution_path g)) = 5 `min` length (execution_path g)
  ∧ (length (execution_path g) ≤ 5 → last_k 5 (execution_path g) = execution_path g)
  ∧ execution_path (_display_graph g).1 = execution_path g.
Proof.
  intros Hp. split_and!.
  - rewrite display_display. apply rendered_prefix.
  - intros Hret. rewrite display_graph_returned by done. by apply last_graph_lines.
  - apply suffix_drop.
  - apply last_k_length.
  - apply last_k_short.
  - apply execution_path_display.
Qed.


(** ** The end of a run is not a redraw *)

Lemma executing_line_in_lines g n :
  active_node g = Some n → n ≠ "" →
  ("[bold green]Currently Executing:[/bold green] " +:+ n) ∈ graph_lines g.
Proof.
  intros Ha Hn. unfold graph_lines. rewrite Ha, truthy_nonempty by done.
  rewrite !elem_of_app. do 6 right. left.
  apply elem_of_cons. right. apply list_elem_of_here.
Qed.

(** X8: the end of a run clears the active node without redrawing: where the
    start of the node was drawn and the banner is written without a raise,
    the lines drawn for the running node, its "Currently Executing" line among
    them, stay on the display under the banner. *)
Theorem end_of_run_keeps_stale_drawing g n error :
  n ≠ "" → (update_execution (NodeStarted n) g).2 = Returned →
  let g1 := (update_execution (NodeStarted n) g).1 in
  let done_ := update_execution ExecutionCompleted g1 in
  let failed_ := update_execution (ExecutionFailed error) g1 in
  (done_.2 = Returned →
   display done_.1 = display g1 ++ [""; complete_banner]
   ∧ active_node done_.1 = None
   ∧ ("[bold green]Currently Executing:[/bold green] " +:+ n) ∈ display done_.1)
  ∧ (failed_.2 = Returned →
     display failed_.1 = display g1 ++ [""; failed_prefix +:+ error]
     ∧ active_node failed_.1 = None
     ∧ ("[bold green]Currently Executing:[/bold green] " +:+ n) ∈ display failed_.1).
Proof.
  intros Hn Hstart g1 done_ failed_.
  assert (Hline : ("[bold green]Currently Executing:[/bold green] " +:+ n) ∈ display g1).
  { subst g1. rewrite update_execution_started in * by done.
    rewrite update_active_node_unfold in *.
    rewrite display_graph_returned by done.
    by apply executing_line_in_lines. }
  subst done_ failed_. clearbody g1.
  rewrite update_execution_complete, update_execution_failed.
  split; intros Hret.
  - destruct (end_of_run_fields complete_banner g1) as (_ & _ & _ & Hr).
    destruct (Hr Hret) as [He Hb].
    rewrite end_of_run_returned by done.
    split_and!; try done. apply elem_of_app. by left.
  - destruct (end_of_run_fields (failed_prefix +:+ error) g1) as (_ & _ & _ & Hr).
    destruct (Hr Hret) as [He Hb].
    rewrite end_of_run_returned by done.
    split_and!; try done. apply elem_of_app. by left.
Qed.


End GraphWidget.

Section GraphWidgetExamples.

Import GraphView Observe.

Lemma node_marker_follows_events_witness :
  let g := init sample_runtime in
  let g1 := (update_execution (markup := sample_markup) (NodeStarted "n1") g).1 in
  let g2 := (update_execution (markup := sample_markup) (NodeCompleted "n1") g1).1 in
  "  ▶ [bold green]n1[/bold green] (llm_generate)" ∈ display g1
  ∧ "  ✓ [dim]n1[/dim] (llm_generate)" ∈ display g2.
Proof.
  intros g.
  destruct (node_marker_follows_events (markup := sample_markup) g
              (mkNode "n1" (Some "llm_generate"))) as [H1 H2].
  - discriminate.
  - apply list_elem_of_here.
  - split; [apply H1 | apply H2]; by vm_compute.
Defined.

Lemma path_line_shows_last_five_witness :
  let events := NodeStarted <$> ["a"; "b"; "c"; "d"; "e"; "f"; "g"] in
  let g := apply_all (markup := sample_markup) events (init sample_runtime) in
  last (display (_display_graph (markup := sample_markup) g).1)
    = Some "[dim]Path:[/dim] c → d → e → f → g".
Proof.
  intros events g.
  assert (Hp : execution_path g ≠ []) by (by vm_compute).
  destruct (path_line_shows_last_five (markup := sample_markup) g Hp) as (_ & Hlast & _).
  etrans; [apply Hlast | ]; by vm_compute.
Defined.

Lemma end_of_run_keeps_stale_drawing_witness :
  let g1 := (update_execution (markup := sample_markup) (NodeStarted "n1")
               (init sample_runtime)).1 in
  let done_ := update_execution (markup := sample_markup) ExecutionCompleted g1 in
  active_node done_.1 = None
  ∧ "[bold green]Currently Executing:[/bold green] n1" ∈ display done_.1.
Proof.
  intros g1.
  destruct (end_of_run_keeps_stale_drawing (markup := sample_markup)
              (init sample_runtime) "n1" "boom") as [Hdone _];
    [discriminate | by vm_compute |].
  destruct Hdone as (_ & Ha & Hin); [by vm_compute|].
  by split.
Defined.

End GraphWidgetExamples.


(** * Further properties of the log relay and the application *)

Section Polling.

Import GraphView LogPaneWidget App.

Context {markup : Markup}.

Implicit Types (a : AdenTUI) (w : World) (h : Handler) (p : LogPane)
  (records q : list LogRecord).

(** ** Polls *)

Lemma poll_loop_app q1 q2 p :
  poll_loop (q1 ++ q2) p =
    ((poll_loop q2 (poll_loop q1 p).1).1,
     (poll_loop q1 p).2 ++ (poll_loop q2 (poll_loop q1 p).1).2).
Proof.
  revert p. induction q1 as [|r q1 IH]; intros p.
  - cbn. by destruct (poll_loop q2 p).
  - rewrite <- app_comm_cons. cbn [poll_loop]. destruct (noisy r); [apply IH|].
    rewrite IH. destruct (poll_loop q1 _) as [p1 w1]. cbn [fst snd].
    by destruct (poll_loop q2 p1).
Qed.

Lemma poll_logs_not_ready a : is_ready a = false → _poll_logs a = (a, []).
Proof. intros Hr. unfold _poll_logs. by rewrite Hr. Qed.

Lemma poll_logs_state a :
  is_ready a = true →
  _poll_logs a =
    (mkAdenTUI (graph_view a) (poll_loop (log_queue a) (log_pane a)).1 true []
               (queue_handler a),
     (poll_loop (log_queue a) (log_pane a)).2).
Proof.
  intros Hr. unfold _poll_logs. rewrite Hr. cbn [negb].
  destruct (poll_loop _ _) as [p written]. destruct a. cbn in *. by subst.
Qed.

(** X9: a poll empties the queue, so a second poll right after it hands on
    nothing and leaves the application as it is. *)
Theorem second_poll_finds_nothing a :
  _poll_logs (_poll_logs a).1 = ((_poll_logs a).1, []).
Proof.
  destruct (is_ready a) eqn:Hr.
  - rewrite (poll_logs_state a Hr). cbn [fst].
    by rewrite poll_logs_state.
  - rewrite (poll_logs_not_ready a Hr). cbn [fst].
    by apply poll_logs_not_ready.
Qed.

Lemma push_all_state records a h :
  queue_handler a = Some h →
  push_all records a =
    mkAdenTUI (graph_view a) (log_pane a) (is_ready a)
      (log_queue a ++ List.filter (λ r, bool_decide (hlevel h ≤ levelno r)) records)
      (queue_handler a).
Proof. intros Hh. by rewrite (push_all_queue records a h Hh). Qed.

Lemma poll_after_push a h records :
  is_ready a = true → queue_handler a = Some h →
  _poll_logs (push_all records a) =
    (mkAdenTUI (graph_view a)
       (poll_loop
          (log_queue a ++ List.filter (λ r, bool_decide (hlevel h ≤ levelno r)) records)
          (log_pane a)).1
       true [] (Some h),
     (poll_loop
        (log_queue a ++ List.filter (λ r, bool_decide (hlevel h ≤ levelno r)) records)
        (log_pane a)).2).
Proof.
  intros Hr Hh. rewrite (push_all_state records a h Hh).
  rewrite poll_logs_state by done.
  cbn [graph_view log_pane log_queue queue_handler]. by rewrite Hh.
Qed.

(** X10: when the polls fall does not matter: a poll between two runs of
    pushes and a poll after the second hand on, together, exactly what one
    poll after both runs hands on, in the same order, and leave the same
    state. *)
Theorem polls_split_anywhere a h records1 records2 :
  is_ready a = true → queue_handler a = Some h →
  let first := _poll_logs (push_all records1 a) in
  let second := _poll_logs (push_all records2 first.1) in
  let single := _poll_logs (push_all (records1 ++ records2) a) in
  first.2 ++ second.2 = single.2 ∧ second.1 = single.1.
Proof.
  intros Hr Hh first second single. subst first second single.
  rewrite (poll_after_push a h records1 Hr Hh).
  rewrite (poll_after_push a h (records1 ++ records2) Hr Hh).
  cbn [fst snd].
  rewrite (poll_after_push _ h records2) by done.
  cbn [fst snd graph_view log_pane log_queue app].
  rewrite List.filter_app, app_assoc.
  rewrite (poll_loop_app (log_queue a ++ _)).
  by cbn [fst snd].
Qed.


Lemma write_log_unmounted msg p :
  is_mounted p = false ∨ log_is_mounted p = false → write_log msg p = p.
Proof.
  intros [Hm | Hl]; unfold write_log.
  - by rewrite Hm.
  - rewrite Hl. by destruct (is_mounted p).
Qed.

Lemma poll_loop_unmounted q p :
  is_mounted p = false ∨ log_is_mounted p = false → (poll_loop q p).1 = p.
Proof.
  intros Hu. induction q as [|r q IH]; [done|].
  cbn [poll_loop]. destruct (noisy r); [done|].
  rewrite write_log_unmounted by done.
  by destruct (poll_loop q p).
Qed.

(** X11: records drained while the log pane (or its [RichLog]) is not mounted
    are lost: the poll takes them off the queue and counts them as handed on,
    but the pane shows none of them. *)
Theorem unmounted_pane_loses_records a :
  is_ready a = true →
  is_mounted (log_pane a) = false ∨ log_is_mounted (log_pane a) = false →
  log_queue (_poll_logs a).1 = []
  ∧ log_pane (_poll_logs a).1 = log_pane a
  ∧ (_poll_logs a).2 = map format (List.filter (λ r, negb (noisy r)) (log_queue a)).
Proof.
  intros Hr Hu. rewrite (poll_logs_state a Hr). cbn [fst snd log_queue log_pane].
  split_and!; [done | by apply poll_loop_unmounted | apply poll_loop_written].
Qed.


(** ** Events and logs *)

(** X12: events and logs do not touch each other: handing events over before
    or after a poll, or before or after a push, gives the same state, and the
    poll hands on the same messages. *)
Theorem events_and_logs_commute (hs : list HandOff) record a :
  (_poll_logs (submit_all hs a)).2 = (_poll_logs a).2
  ∧ (_poll_logs (submit_all hs a)).1 = submit_all hs (_poll_logs a).1
  ∧ push record (submit_all hs a) = submit_all hs (push record a).
Proof.
  rewrite !submit_all_state.
  destruct a as [gv p rdy q qh]. cbn [graph_view log_pane is_ready log_queue queue_handler].
  split_and!.
  - unfold _poll_logs. cbn. destruct rdy; cbn; [|done]. by destruct (poll_loop q p).
  - unfold _poll_logs. cbn. destruct rdy; cbn; [|done]. by destruct (poll_loop q p).
  - unfold push. cbn. destruct qh as [h|]; [|done]. by case_bool_decide.
Qed.

(** X18: through the application's handler too, whatever is handed over
    after the start, the path of the graph view never holds a node twice. *)
Theorem dashboard_path_no_duplicates rt pane log fresh (hs : list HandOff) :
  let a := app (on_mount fresh (mkWorld (init rt pane) log)) in
  is_ready a = true
  ∧ NoDup (execution_path (graph_view (submit_all hs a))).
Proof.
  intros a. split; [done|].
  rewrite submit_all_state. cbn [graph_view].
  change (is_ready a) with true. cbn match.
  apply NoDup_apply_all. cbn. apply NoDup_nil_2.
Qed.

(** X19: before the start nothing gets through: the application built by
    the constructor skips every event handed over, a poll hands on nothing,
    and a record has no queue handler to reach. *)
Theorem constructed_app_is_inert rt pane (hs : list HandOff) record :
  let a := init rt pane in
  submit_all hs a = a
  ∧ _poll_logs a = (a, [])
  ∧ push record a = a.
Proof.
  intros a. split_and!; [by apply submit_all_not_ready | done | done].
Qed.

(** ** Stopping *)

Lemma remove_first_not_elem h hs : h ∉ hs → remove_first h hs = hs.
Proof.
  induction hs as [|h' hs IH]; [done|].
  intros Hn. apply not_elem_of_cons in Hn as [Hne Hn].
  cbn. rewrite bool_decide_eq_false_2 by done. by rewrite IH.
Qed.

Lemma remove_first_NoDup h hs : NoDup hs → h ∉ remove_first h hs.
Proof.
  induction 1 as [|h' hs Hh' Hnd IH]; [apply not_elem_of_nil|].
  cbn. case_bool_decide as Heq.
  - by subst.
  - apply not_elem_of_cons. split; [done | apply IH].
Qed.

Lemma removeHandler_elem h hs : h ∈ hs → removeHandler h hs = remove_first h hs.
Proof. intros Hin. unfold removeHandler. by rewrite bool_decide_eq_true_2. Qed.

Lemma removeHandler_not_elem h hs : h ∉ hs → removeHandler h hs = hs.
Proof. intros Hin. unfold removeHandler. by rewrite bool_decide_eq_false_2. Qed.

Lemma removeHandler_twice h hs :
  NoDup hs → removeHandler h (removeHandler h hs) = removeHandler h hs.
Proof.
  intros Hnd. destruct (decide (h ∈ hs)) as [Hin | Hin].
  - rewrite (removeHandler_elem h hs Hin).
    apply removeHandler_not_elem. by apply remove_first_NoDup.
  - by rewrite !(removeHandler_not_elem h hs Hin).
Qed.

(** X13: stopping twice is stopping once: with the root logger's handlers
    free of repetitions, as [addHandler] keeps them, a second [on_unmount]
    changes nothing; and an [on_unmount] with no logging set-up before it
    leaves the logging configuration alone. *)
Theorem on_unmount_twice_is_once w :
  NoDup (root_handlers (logging w)) →
  on_unmount (on_unmount w) = on_unmount w
  ∧ (queue_handler (app w) = None → logging (on_unmount w) = logging w).
Proof.
  intros Hnd. destruct w as [[gv p rdy q qh] [hs lvl ll lp]]. cbn in Hnd.
  split.
  - unfold on_unmount. cbn. destruct qh as [h|]; cbn; [|done].
    by rewrite removeHandler_twice.
  - cbn. by intros ->.
Qed.


(** X14: a second dashboard started in the same process takes the first
    one's queue handler off the root logger, and the first one's later
    [on_unmount] leaves the second one's handler in place. *)
Theorem second_start_evicts_first_handler fresh1 fresh2 w a2 :
  fresh1 ≠ fresh2 →
  let w1 := on_mount fresh1 w in
  let w2 := on_mount fresh2 (mkWorld a2 (logging w1)) in
  let stopped := on_unmount (mkWorld (app w1) (logging w2)) in
  root_handlers (logging w1) = [mkHandler fresh1 INFO]
  ∧ root_handlers (logging w2) = [mkHandler fresh2 INFO]
  ∧ root_handlers (logging stopped) = [mkHandler fresh2 INFO].
Proof.
  intros Hne w1 w2 stopped.
  assert (H1 : root_handlers (logging w1) = [mkHandler fresh1 INFO])
    by apply setup_root_handlers.
  assert (H2 : root_handlers (logging w2) = [mkHandler fresh2 INFO])
    by apply setup_root_handlers.
  split_and!; [done | done |].
  subst stopped. unfold on_unmount.
  cbn [app logging set_is_ready queue_handler].
  assert (Hq : queue_handler (app w1) = Some (mkHandler fresh1 INFO)) by done.
  rewrite Hq. cbn [logging root_handlers]. rewrite H2.
  unfold removeHandler. rewrite bool_decide_eq_false_2; [done|].
  intros Hin%list_elem_of_singleton. congruence.
Qed.


End Polling.

Section PollingExamples.

Import GraphView LogPaneWidget App.

Lemma polls_split_anywhere_witness :
  let a := app (on_mount 1 (sample_world [])) in
  let rs1 := [mkLogRecord 20 "agent" "one"; mkLogRecord 20 "textual" "skip"] in
  let rs2 := [mkLogRecord 30 "agent" "two"] in
  (_poll_logs (markup := sample_markup) (push_all rs1 a)).2
    ++ (_poll_logs (markup := sample_markup)
          (push_all rs2 (_poll_logs (markup := sample_markup) (push_all rs1 a)).1)).2
  = ["one"; "two"].
Proof.
  intros a rs1 rs2.
  destruct (polls_split_anywhere (markup := sample_markup)
              a (mkHandler 1 INFO) rs1 rs2 eq_refl eq_refl) as [Hw _].
  etrans; [exact Hw | by vm_compute].
Defined.

Lemma unmounted_pane_loses_records_witness :
  let pane := mkLogPane true false ["old"] in
  let a := push (sample_record "agent")
             (app (on_mount 1 (mkWorld (init sample_runtime pane) (mkLogging [] 30 0 true)))) in
  log_queue (_poll_logs (markup := sample_markup) a).1 = []
  ∧ log_pane (_poll_logs (markup := sample_markup) a).1 = pane
  ∧ (_poll_logs (markup := sample_markup) a).2 = ["tick"].
Proof.
  intros pane a.
  destruct (unmounted_pane_loses_records (markup := sample_markup)
              a eq_refl (or_intror eq_refl)) as (Hq & Hp & Hw).
  split_and!; [exact Hq | exact Hp | etrans; [exact Hw | by vm_compute]].
Defined.

Lemma on_unmount_twice_is_once_witness :
  let w := on_mount 1 (sample_world [mkHandler 0 0]) in
  on_unmount (on_unmount w) = on_unmount w.
Proof.
  intros w. apply (on_unmount_twice_is_once w).
  vm_compute. apply NoDup_singleton.
Defined.

Lemma second_start_evicts_first_handler_witness :
  let w1 := on_mount 1 (sample_world [mkHandler 0 0]) in
  let w2 := on_mount 2 (mkWorld (init sample_runtime sample_pane) (logging w1)) in
  root_handlers (logging (on_unmount (mkWorld (app w1) (logging w2))))
    = [mkHandler 2 INFO].
Proof.
  intros w1 w2.
  destruct (second_start_evicts_first_handler 1 2 (sample_world [mkHandler 0 0])
              (init sample_runtime sample_pane)) as (_ & _ & H); [lia|].
  exact H.
Defined.

End PollingExamples.


(** * Properties of the screenshot *)

Section ScreenshotProperties.

Import Screenshot.

Implicit Types (s : Screen) (f suffix timestamp : string) (bs : list Border).

(** ** File names *)

Lemma string_app_cons c f1 f2 : String c f1 +:+ f2 = String c (f1 +:+ f2).
Proof. done. Qed.

Lemma string_app_assoc f1 f2 f3 : (f1 +:+ f2) +:+ f3 = f1 +:+ (f2 +:+ f3).
Proof.
  induction f1 as [|c f1 IH]; [done|].
  by rewrite !string_app_cons, IH.
Qed.

Lemma endswith_unfold f suffix :
  endswith f suffix =
    if String.eqb f suffix then true
    else match f with
         | EmptyString => false
         | String _ f' => endswith f' suffix
         end.
Proof. by destruct f. Qed.

Lemma endswith_app f suffix : endswith (f +:+ suffix) suffix = true.
Proof.
  induction f as [|c f IH].
  - change ("" +:+ suffix) with suffix.
    rewrite endswith_unfold. by rewrite String.eqb_refl.
  - rewrite string_app_cons, endswith_unfold.
    by destruct (String.eqb _ _).
Qed.

Lemma endswith_stem f suffix :
  endswith f suffix = true → ∃ stem, f = stem +:+ suffix.
Proof.
  induction f as [|c f IH]; rewrite endswith_unfold.
  - destruct (String.eqb "" suffix) eqn:Heq; [|done].
    apply String.eqb_eq in Heq as <-. by exists "".
  - destruct (String.eqb (String c f) suffix) eqn:Heq.
    + apply String.eqb_eq in Heq as <-. by exists "".
    + intros [stem ->]%IH. by exists (String c stem).
Qed.

Lemma screenshot_filename_endswith filename timestamp :
  endswith (screenshot_filename filename timestamp) ".svg" = true.
Proof.
  unfold screenshot_filename.
  set (name := match filename with
               | Some f => f
               | None => "tui_screenshot_" +:+ timestamp +:+ ".svg"
               end).
  cbn zeta. destruct (endswith name ".svg") eqn:Hend; cbn [negb]; [done|].
  apply endswith_app.
Qed.

(** X15: the file name of a screenshot always ends in [.svg]: a name that
    has the ending is kept, any other gets it appended, and the name made
    from the time stamp has it; naming again changes nothing. *)
Theorem screenshot_filename_is_svg filename f timestamp timestamp' :
  (∃ stem, screenshot_filename filename timestamp = stem +:+ ".svg")
  ∧ screenshot_filename (Some (f +:+ ".svg")) timestamp = f +:+ ".svg"
  ∧ screenshot_filename None timestamp = "tui_screenshot_" +:+ timestamp +:+ ".svg"
  ∧ (endswith f ".svg" = false → screenshot_filename (Some f) timestamp = f +:+ ".svg")
  ∧ screenshot_filename (Some (screenshot_filename filename timestamp)) timestamp'
      = screenshot_filename filename timestamp.
Proof.
  split_and!.
  - apply endswith_stem, screenshot_filename_endswith.
  - unfold screenshot_filename. by rewrite endswith_app.
  - unfold screenshot_filename.
    rewrite <- string_app_assoc, endswith_app. done.
  - intros Hf. unfold screenshot_filename. by rewrite Hf.
  - unfold screenshot_filename at 1.
    by rewrite screenshot_filename_endswith.
Qed.

(** ** Borders *)

Lemma hide_inputs_from original now bs :
  foldl (λ '(original, now) b, (original ++ [b], now ++ [hidden])) (original, now) bs
    = (original ++ bs, now ++ replicate (length bs) hidden).
Proof.
  revert original now. induction bs as [|b bs IH]; intros original now.
  - cbn. by rewrite !app_nil_r.
  - cbn [foldl length replicate]. rewrite IH.
    by rewrite <- !app_assoc.
Qed.

Lemma hide_inputs_all bs : hide_inputs bs = (bs, replicate (length bs) hidden).
Proof. unfold hide_inputs. by rewrite hide_inputs_from. Qed.

Lemma restore_inputs_all original now :
  length now = length original → restore_inputs original now = original.
Proof.
  intros Hlen. unfold restore_inputs. apply list_eq. intros i.
  rewrite list_lookup_imap.
  destruct (original !! i) as [b|] eqn:Ho.
  - destruct (lookup_lt_is_Some_2 now i) as [b' Hn].
    { rewrite Hlen. by eapply lookup_lt_Some. }
    by rewrite Hn.
  - rewrite (lookup_ge_None_2 now i); [done|].
    rewrite Hlen. by apply lookup_ge_None.
Qed.

Section Environment.

Variable FS : Type.
Variable path_join : string → string → string.
Variable mkdir : string → FS → FS * option string.
Variable export_screenshot : Screen → string + string.
Variable write_text : string → string → FS → FS * option string.

Implicit Types (fs : FS).

Lemma save_png_screenshot_result filename timestamp s fs :
  save_png_screenshot FS path_join mkdir export_screenshot write_text
      filename timestamp s fs =
    let filepath := path_join "screenshots" (screenshot_filename filename timestamp) in
    match mkdir "screenshots" fs with
    | (fs1, Some e) => (s, fs1, inr e)
    | (fs1, None) =>
        match export_screenshot (hidden_screen s) with
        | inl svg_data =>
            match write_text filepath svg_data fs1 with
            | (fs2, None) => (s, fs2, inl filepath)
            | (fs2, Some e) => (s, fs2, inr e)
            end
        | inr e => (s, fs1, inr e)
        end
    end.
Proof.
  unfold save_png_screenshot. cbn zeta.
  destruct (mkdir "screenshots" fs) as [fs1 [e|]]; [done|].
  rewrite hide_inputs_all. fold (hidden_screen s).
  assert (Hrestore : set_borders (chat_border_left s)
            (restore_inputs (input_borders s) (input_borders (hidden_screen s)))
            (hidden_screen s) = s).
  { cbn [hidden_screen input_borders set_borders].
    rewrite restore_inputs_all by apply length_replicate. by destruct s. }
  destruct (export_screenshot (hidden_screen s)) as [svg|e].
  - destruct (write_text _ svg fs1) as [fs2 [e|]]; by rewrite Hrestore.
  - by rewrite Hrestore.
Qed.


(** X17: the screenshot action never lets an exception out: it adds exactly
    one notification, of severity ["information"] with the path when the
    screenshot was saved and of severity ["error"] with the message when it
    was not, and leaves the borders as they were. *)
Theorem action_screenshot_notifies_once timestamp s fs :
  let after := action_screenshot FS path_join mkdir export_screenshot write_text
                 timestamp s fs in
  let result := save_png_screenshot FS path_join mkdir export_screenshot write_text
                  None timestamp s fs in
  chat_border_left after.1 = chat_border_left s
  ∧ input_borders after.1 = input_borders s
  ∧ after.2 = result.1.2
  ∧ notifications after.1 =
      notifications s ++
        [match result.2 with
         | inl filepath =>
             mkNotification
               ("Screenshot saved: " +:+ filepath +:+ " (SVG - open in browser)")
               "information"
         | inr e => mkNotification ("Screenshot failed: " +:+ e) "error"
         end].
Proof.
  intros after result. subst after result. unfold action_screenshot.
  rewrite save_png_screenshot_result. cbn zeta.
  destruct (mkdir "screenshots" fs) as [fs1 [e|]]; [done|].
  destruct (export_screenshot _) as [svg|e]; [|done].
  by destruct (write_text _ svg fs1) as [fs2 [e|]].
Qed.

End Environment.

End ScreenshotProperties.
